(** * hackjam.rxjs: a shallow embedding of the Observable library

    The development follows [rxjs.js]: every operator is translated as the
    JavaScript is written.  An observable is an object whose only capability
    is [subscribe(nextFn, errorFn, completeFn)]; the callbacks are effectful
    JavaScript functions, modelled as computations of a state-and-exception
    monad over the observer's own state.  Variables declared inside a
    [subscribe] body ([let i = 0], [let bool = true], [let isDone = true])
    extend the state for the extent of that call.

    Conventions of the model:
    - the projections and predicates given to [map], [filter] and [first]
      are pure functions on values; the callbacks of the observer are
      arbitrary and may throw;
    - the statements about subscribing again use a second embedding of the
      creation and filtering operators, in which the variables of a
      [subscribe] body are cells of a store that outlives the call and the
      predicates are functions with effects of their own;
    - the synchronous operators run entirely inside the call of [subscribe];
      [fromPromise] is modelled on a store of promises with its queue of
      reaction jobs, [interval] on a registry of repeating timers whose
      firings are events of the host;
    - a statement about every upstream sequence is made for every
      observable whose [subscribe] makes a fixed sequence of calls on its
      observer ([emits]): every producer, and every observable built with
      the synchronous operators. *)

From Stdlib Require Import ZArith String Lia.
From stdpp Require Import base list.

Open Scope Z_scope.

(** ** JavaScript values *)

(** Numbers are restricted to the integers and [NaN]; objects carry the
    reference that [===] compares.  A promise is the only thenable of the
    model: it is a reference into the promise store of the run-time. *)
#[warnings="-register-all"]
Inductive value : Type :=
| VUndefined
| VNull
| VBool (b : bool)
| VNum (n : Z)
| VNaN
| VStr (s : string)
| VArray (ref : nat) (elems : list value)
| VMap (ref : nat) (entries : list (value * value))
| VObject (ref : nat)
| VPromise (ref : nat).

(** What a [throw] (or a promise rejection) carries: a [TypeError] raised by
    the run-time, or an arbitrary value. *)
Inductive thrown : Type :=
| TypeError (msg : string)
| Raised (v : value).

(** [ToBoolean], the test behind [if (x)] and [x && ...]. *)
Definition truthy (v : value) : bool :=
  match v with
  | VUndefined | VNull | VNaN => false
  | VBool b => b
  | VNum n => negb (n =? 0)
  | VStr s => negb (String.eqb s EmptyString)
  | VArray _ _ | VMap _ _ | VObject _ | VPromise _ => true
  end.

Definition object_ref (v : value) : option nat :=
  match v with
  | VArray r _ | VMap r _ | VObject r | VPromise r => Some r
  | _ => None
  end.

(** The strict equality [a === b]. *)
Definition strict_eq (a b : value) : bool :=
  match a, b with
  | VUndefined, VUndefined => true
  | VNull, VNull => true
  | VBool x, VBool y => Bool.eqb x y
  | VNum x, VNum y => x =? y
  | VStr x, VStr y => String.eqb x y
  | _, _ =>
      match object_ref a, object_ref b with
      | Some r1, Some r2 => Nat.eqb r1 r2
      | _, _ => false
      end
  end.

(** An argument that the code tests with [typeof f === 'function']. *)
Inductive fn_or_value : Type :=
| Fn (f : value -> value)
| NotFn (v : value).

(** ** The effect monad: state passing with JavaScript completions *)

Inductive completion (S A : Type) : Type :=
| Normal (a : A) (s : S)
| Throw (exn : thrown) (s : S).
Arguments Normal {S A} a s.
Arguments Throw {S A} exn s.

Definition M (S A : Type) : Type := S -> completion S A.

Definition ret {S A} (a : A) : M S A := fun s => Normal a s.

Definition bind {S A B} (m : M S A) (k : A -> M S B) : M S B :=
  fun s =>
    match m s with
    | Normal a s' => k a s'
    | Throw exn s' => Throw exn s'
    end.

Definition throw {S A} (exn : thrown) : M S A := fun s => Throw exn s.

Declare Scope js_scope.
Delimit Scope js_scope with js.
Notation "x <- m ;; k" := (bind m (fun x => k))
  (at level 100, m at next level, right associativity) : js_scope.
Notation "m ;; k" := (bind m (fun _ => k))
  (at level 100, k at level 200, right associativity) : js_scope.
Open Scope js_scope.

Definition state_of {S A} (c : completion S A) : S :=
  match c with
  | Normal _ s => s
  | Throw _ s => s
  end.

(** [array.forEach(f)] *)
Fixpoint forEach {S A} (array : list A) (f : A -> M S unit) : M S unit :=
  match array with
  | [] => ret tt
  | x :: rest => f x ;; forEach rest f
  end.

(** *** Variables local to a call *)

(** [let x = init; body]: the body runs on the state extended with [x]. *)
Definition let_local {L S A} (init : L) (body : M (L * S) A) : M S A :=
  fun s =>
    match body (init, s) with
    | Normal a (_, s') => Normal a s'
    | Throw exn (_, s') => Throw exn s'
    end.

(** A computation of the enclosing scope, run where [x] is in scope. *)
Definition outer {L S A} (m : M S A) : M (L * S) A :=
  fun '(l, s) =>
    match m s with
    | Normal a s' => Normal a (l, s')
    | Throw exn s' => Throw exn (l, s')
    end.

Definition get_local {L S} : M (L * S) L := fun '(l, s) => Normal l (l, s).
Definition set_local {L S} (l : L) : M (L * S) unit := fun '(_, s) => Normal tt (l, s).

(** [++i] *)
Definition pre_incr {S} : M (Z * S) Z := fun '(i, s) => Normal (i + 1) (i + 1, s).

(** ** Observables *)

(** The three callbacks of [subscribe]; none of the operators below uses
    what a callback returns. *)
Definition nextFn_t (S : Type) : Type := value -> M S unit.
Definition errorFn_t (S : Type) : Type := value -> M S unit.
Definition completeFn_t (S : Type) : Type := M S unit.

Record Observable : Type := mkObservable {
  subscribe : forall S : Type, nextFn_t S -> errorFn_t S -> completeFn_t S -> M S unit
}.
Arguments subscribe o {S} nextFn errorFn completeFn.

(** [this] inside [map], [filter] and [concat], which are installed both on
    [Observable.prototype] and on [Observable] itself: an observable when
    called as a method, the class (which has no [subscribe]) when called
    statically. *)
Inductive receiver : Type :=
| Instance (o : Observable)
| Static.

Definition not_a_function : thrown := TypeError "this.subscribe is not a function".

(** [this.subscribe(nextFn, errorFn, completeFn)] *)
Definition this_subscribe {S} (this : receiver)
    (nextFn : nextFn_t S) (errorFn : errorFn_t S) (completeFn : completeFn_t S) : M S unit :=
  match this with
  | Instance o => subscribe o nextFn errorFn completeFn
  | Static => throw not_a_function
  end.

(** ** Promises and the microtask queue *)

(** The part of the run-time that [fromPromise] relies on: a store of
    promises, each pending with its registered reactions or settled, and the
    queue of reaction jobs.  [then] is only ever called with a fulfilment
    handler, so a reaction holds that handler and the promise [then]
    returned; a handler is a callback of the observer and acts on the
    observer's state [U]. *)
Inductive settlement : Type :=
| Fulfilled (v : value)
| Rejected (reason : thrown).

Section Runtime.
Context {U : Type}.

Record reaction : Type := mkReaction {
  on_fulfilled : value -> M U unit;
  derived : nat
}.

Inductive promise_state : Type :=
| Pending (reactions : list reaction)
| Settled (outcome : settlement).

(** A reaction job: a reaction and the settlement it reacts to. *)
Local Abbreviation job := (reaction * settlement)%type.

Record runtime : Type := mkRuntime {
  user : U;
  promises : list promise_state;
  microtasks : list job
}.

Definition new_promise : M runtime nat :=
  fun w =>
    Normal (length (promises w))
      (mkRuntime (user w) (promises w ++ [Pending []]) (microtasks w)).

Definition enqueue (jobs : list job) : M runtime unit :=
  fun w => Normal tt (mkRuntime (user w) (promises w) (microtasks w ++ jobs)).

Definition store_promise (p : nat) (st : promise_state) : M runtime unit :=
  fun w => Normal tt (mkRuntime (user w) (<[p := st]> (promises w)) (microtasks w)).

Definition load_promise (p : nat) : M runtime (option promise_state) :=
  fun w => Normal (promises w !! p) w.

(** [p.then(onFulfilled)] on the promise at [p]: a settled promise
    schedules the reaction at once, a pending one records it. *)
Definition promise_then (p : nat) (onFulfilled : value -> M U unit) : M runtime nat :=
  q <- new_promise ;;
  let r := mkReaction onFulfilled q in
  st <- load_promise p ;;
  match st with
  | Some (Pending reactions) => store_promise p (Pending (reactions ++ [r]))
  | Some (Settled outcome) => enqueue [(r, outcome)]
  | None => ret tt
  end ;;
  ret q.

(** [promise.then(onFulfilled)] on an arbitrary value: reading [then] off
    [null] or [undefined] fails, and on any other value than a promise the
    property read is not a function. *)
Definition then_ (promise : value) (onFulfilled : value -> M U unit) : M runtime value :=
  match promise with
  | VPromise p => q <- promise_then p onFulfilled ;; ret (VPromise q)
  | VNull => throw (TypeError "Cannot read properties of null (reading 'then')")
  | VUndefined => throw (TypeError "Cannot read properties of undefined (reading 'then')")
  | _ => throw (TypeError "promise.then is not a function")
  end.

(** Settling a pending promise schedules its reactions in registration
    order; a promise settles once. *)
Definition settle (p : nat) (outcome : settlement) : M runtime unit :=
  st <- load_promise p ;;
  match st with
  | Some (Pending reactions) =>
      store_promise p (Settled outcome) ;;
      enqueue ((fun r => (r, outcome)) <$> reactions)
  | _ => ret tt
  end.

(** The callbacks act on the observer's state only. *)
Definition in_user (m : M U unit) : M runtime (option thrown) :=
  fun w =>
    match m (user w) with
    | Normal _ u => Normal None (mkRuntime u (promises w) (microtasks w))
    | Throw exn u => Normal (Some exn) (mkRuntime u (promises w) (microtasks w))
    end.

(** One reaction job.  A fulfilment runs the handler and resolves the
    derived promise with what it returned ([undefined] here), or rejects
    it with what it threw; a rejection, for which [then] was given no
    handler, is passed on to the derived promise. *)
Definition run_job (j : job) : M runtime unit :=
  let '(r, outcome) := j in
  match outcome with
  | Fulfilled v =>
      thrown_ <- in_user (on_fulfilled r v) ;;
      match thrown_ with
      | None => settle (derived r) (Fulfilled VUndefined)
      | Some exn => settle (derived r) (Rejected exn)
      end
  | Rejected reason => settle (derived r) (Rejected reason)
  end.

(** Run the queue until it is empty. *)
Fixpoint drain (fuel : nat) (w : runtime) : option runtime :=
  match microtasks w with
  | [] => Some w
  | j :: rest =>
      match fuel with
      | O => None
      | S fuel' =>
          drain fuel' (state_of (run_job j (mkRuntime (user w) (promises w) rest)))
      end
  end.
End Runtime.
Arguments reaction U : clear implicits.
Arguments promise_state U : clear implicits.
Abbreviation job U := (reaction U * settlement)%type (only parsing).
Arguments runtime U : clear implicits.

(** An observable whose notifications are delivered by reaction jobs: its
    [subscribe] only registers them with the run-time. *)
Record PromiseObservable : Type := mkPromiseObservable {
  subscribe_later :
    forall U : Type, nextFn_t U -> errorFn_t U -> completeFn_t U -> M (runtime U) unit
}.
Arguments subscribe_later _ {U} nextFn errorFn completeFn.

(** What [Observable.from] returns. *)
Inductive from_result : Type :=
| FromObservable (o : Observable)
| FromPromiseObservable (o : PromiseObservable)
| FromUndefined.

(** ** Repeating timers *)

(** The part of the run-time that [interval] relies on: [setInterval] and
    [clearInterval].  The only handler ever registered is
    [function () { nextFn(count++) }], so a timer holds the two variables
    that this closure captures, [count] and [nextFn], next to its period.
    When a timer is due is up to the host: a firing is an event, [fire]. *)
Section Timers.
Context {U : Type}.

Record timer : Type := mkTimer {
  period : value;
  count : Z;
  handler_nextFn : value -> M U unit;
  cleared : bool
}.

Record scheduler : Type := mkScheduler {
  observer_state : U;
  timers : list timer
}.

(** [setInterval(function () { nextFn(count++) }, period)], with [count]
    at 0: the new timer's identifier is returned. *)
Definition setInterval (nextFn : value -> M U unit) (period : value) : M scheduler nat :=
  fun w =>
    Normal (length (timers w))
      (mkScheduler (observer_state w) (timers w ++ [mkTimer period 0 nextFn false])).

(** [clearInterval(id)]; an unknown identifier is ignored. *)
Definition clearInterval (id : nat) : M scheduler unit :=
  fun w =>
    Normal tt
      (mkScheduler (observer_state w)
         (alter (fun t => mkTimer (period t) (count t) (handler_nextFn t) true) id (timers w))).

(** The timer [id] is due: unless it was cleared, its handler runs.
    [count++] increments the counter before [nextFn] is called with its
    former value; what the callback throws reaches the host. *)
Definition fire (id : nat) : M scheduler unit :=
  fun w =>
    match timers w !! id with
    | Some t =>
        if cleared t then Normal tt w
        else
          let timers' :=
            <[id := mkTimer (period t) (count t + 1) (handler_nextFn t) false]> (timers w) in
          match handler_nextFn t (VNum (count t)) (observer_state w) with
          | Normal _ u => Normal tt (mkScheduler u timers')
          | Throw exn u => Throw exn (mkScheduler u timers')
          end
    | None => Normal tt w
    end.
End Timers.
Arguments timer U : clear implicits.
Arguments scheduler U : clear implicits.

(** An observable driven by a timer: its [subscribe] takes [nextFn] only
    and returns the teardown. *)
Record TimerObservable : Type := mkTimerObservable {
  subscribe_timer : forall U : Type, nextFn_t U -> M (scheduler U) (M (scheduler U) unit)
}.
Arguments subscribe_timer _ {U} nextFn.

(** The operators keep their JavaScript names inside [Rx]; [of] is a
    reserved word and becomes [of_]. *)
Module Rx.

(** *** Creation: [of], [fromArray] *)

Definition of_ (args : list value) : Observable :=
  {| subscribe S nextFn errorFn completeFn :=
       forEach args (fun x => nextFn x) ;;
       completeFn |}.

(** [fromArray(args = [])]: [None] is the call without an argument. *)
Definition fromArray (args : option (list value)) : Observable :=
  let args := match args with Some a => a | None => [] end in
  of_ args.

(** *** Creation: [fromPromise], [from] *)

(** The empty object [{}] that [fromPromise] defaults to. *)
Definition empty_object : value := VObject 0.

(** [fromPromise(promise = {})]: the default stands in for a missing
    argument and for [undefined]. *)
Definition fromPromise (promise : option value) : PromiseObservable :=
  let promise :=
    match promise with
    | None | Some VUndefined => empty_object
    | Some p => p
    end in
  {| subscribe_later U nextFn errorFn completeFn :=
       p1 <- then_ promise (fun val => nextFn val) ;;
       _ <- then_ p1 (fun _ => completeFn) ;;
       ret tt |}.

(** [typeof input.then === 'function'] *)
Definition has_then_function (input : value) : bool :=
  match input with
  | VPromise _ => true
  | _ => false
  end.

(** [input.split('')] *)
Fixpoint split_chars (input : string) : list value :=
  match input with
  | EmptyString => []
  | String c rest => VStr (String c EmptyString) :: split_chars rest
  end.

(** [input.entries()], spread: one new two-element array per entry, in
    iteration order; [next_ref] is the first unused object reference. *)
Fixpoint map_entries (entries : list (value * value)) (next_ref : nat) : list value * nat :=
  match entries with
  | [] => ([], next_ref)
  | (k, v) :: rest =>
      let '(arrays, next_ref') := map_entries rest (S next_ref) in
      (VArray next_ref [k; v] :: arrays, next_ref')
  end.

Definition from (input : value) (next_ref : nat) : from_result * nat :=
  if truthy input && has_then_function input then
    (* input && typeof input.then === 'function' *)
    (FromPromiseObservable (fromPromise (Some input)), next_ref)
  else
    match input with
    | VArray _ elems =>
        (* Array.isArray(input) *)
        (FromObservable (of_ elems), next_ref)
    | VStr str =>
        (* input && typeof input === 'string' *)
        if truthy input then
          let newInput := split_chars str in
          (FromObservable (of_ newInput), next_ref)
        else (FromUndefined, next_ref)
    | VMap _ entries =>
        (* input && input instanceof Map *)
        let '(newInput, next_ref') := map_entries entries next_ref in
        (FromObservable (of_ newInput), next_ref')
    | _ =>
        (* no return statement is reached *)
        (FromUndefined, next_ref)
    end.

(** *** Transformation: [map], [mapTo] *)

(** [thisArgs] is [Some source] when the second argument is an observable
    ([thisArgs && thisArgs instanceof Observable]) and [None] otherwise. *)
Definition map (projection : value -> value) (thisArgs : option Observable)
    (this : receiver) : Observable :=
  {| subscribe S nextFn errorFn completeFn :=
       match thisArgs with
       | Some source =>
           subscribe source (fun val => nextFn (projection val)) errorFn completeFn
       | None =>
           this_subscribe this (fun val => nextFn (projection val)) errorFn completeFn
       end |}.

Definition mapTo (constant : value) (this : Observable) : Observable :=
  {| subscribe S nextFn errorFn completeFn :=
       subscribe this (fun _ => nextFn constant) errorFn completeFn |}.

(** *** Filtering: [filter], [take], [first], [skip] *)

Definition filter (predicate : value -> value) (thisArgs : option Observable)
    (this : receiver) : Observable :=
  {| subscribe S nextFn errorFn completeFn :=
       match thisArgs with
       | Some source =>
           subscribe source
             (fun val => if truthy (predicate val) then nextFn val else ret tt)
             errorFn completeFn
       | None =>
           this_subscribe this
             (fun val => if truthy (predicate val) then nextFn val else ret tt)
             errorFn completeFn
       end |}.

Definition take (count : Z) (this : Observable) : Observable :=
  {| subscribe S nextFn errorFn completeFn :=
       let_local 0 (* let i = 0 *)
         (subscribe this
            (fun val =>
               i <- pre_incr ;;
               if i <=? count then outer (nextFn val) else ret tt)
            (fun err => outer (errorFn err))
            (outer completeFn)) |}.

Definition first (predicate : fn_or_value) (this : Observable) : Observable :=
  {| subscribe S nextFn errorFn completeFn :=
       let_local true (* let bool = true *)
         (subscribe this
            (fun val =>
               bool_ <- get_local ;;
               if bool_ : bool then
                 match predicate with
                 | Fn f =>
                     (* typeof predicate === 'function' && predicate(val) *)
                     if truthy (f val)
                     then set_local false ;; outer (nextFn val)
                     else ret tt
                 | NotFn p =>
                     (* predicate === undefined *)
                     if strict_eq p VUndefined
                     then set_local false ;; outer (nextFn val)
                     else ret tt
                 end
               else ret tt)
            (fun err => outer (errorFn err))
            (outer completeFn)) |}.

Definition skip (the : value) (this : Observable) : Observable :=
  {| subscribe S nextFn errorFn completeFn :=
       let_local false (* let bool = false *)
         (subscribe this
            (fun val =>
               bool_ <- get_local ;;
               if bool_ : bool then outer (nextFn val)
               else if strict_eq val the then set_local true
               else ret tt)
            (fun err => outer (errorFn err))
            (outer completeFn)) |}.

(** *** Combination: [startWith], [concat] *)

Definition startWith (args : list value) (this : Observable) : Observable :=
  {| subscribe S nextFn errorFn completeFn :=
       forEach args (fun x => nextFn x) ;;
       subscribe this (fun val => nextFn val) errorFn completeFn |}.

(** The inner function [callback] of [concat]. *)
Definition concat_callback {S} (observables : list Observable)
    (nextFn : nextFn_t S) (errorFn : errorFn_t S) : M S unit :=
  let_local true (* let isDone = true *)
    (forEach observables (fun obs =>
       isDone <- get_local ;;
       if isDone : bool then
         set_local false ;;
         subscribe obs
           (fun v => outer (nextFn v))
           (fun err => outer (errorFn err))
           (set_local true)
       else ret tt)).

Definition concat (observables : list Observable) (this : receiver) : Observable :=
  {| subscribe S nextFn errorFn completeFn :=
       let callback := concat_callback observables nextFn errorFn in
       match this with
       | Instance o =>
           (* typeof this.subscribe === 'function' *)
           subscribe o (fun val => nextFn val) errorFn callback
       | Static => callback
       end ;;
       completeFn |}.

(** *** Creation: [interval] *)

Definition interval (period : value) : TimerObservable :=
  {| subscribe_timer U nextFn :=
       (* let count = 0, captured by the handler *)
       timeout <- setInterval nextFn period ;;
       (* clearInterval.bind(null, timeout) *)
       ret (clearInterval timeout) |}.

(** *** Utility: [do] *)

(** [do(next, error, complete)]; [None] is an argument that is not a
    function.  The call [next()] passes no argument. *)
Definition do_ {S} (next : option (value -> M S unit))
    (error : option (value -> M S unit)) (complete : option (M S unit))
    (this : Observable) : M S Observable :=
  match next with
  | Some f => f VUndefined
  | None => throw (TypeError "next is not a function")
  end ;;
  ret this.

End Rx.

(** ** The creation and filtering operators over a store of variables *)

(** A second embedding of [of], [fromArray], [filter], [take], [first] and
    [skip], for the statements about what one subscription leaves behind
    for the next.  Here the variables that a [subscribe] body declares
    ([let i = 0], [let bool = true], [let bool = false]) are cells of a
    store that outlives the call, the closures holding their addresses; and
    the predicates are JavaScript functions with effects of their own.  The
    code of the user of the library, observer callbacks and predicates
    alike, acts on [U] and cannot reach the cells; the operators act on the
    cells and reach [U] only through the functions they are given. *)
Section Store.
Context {U : Type}.

Record store : Type := mkStore {
  cells : list value;
  outside : U
}.

(** [let x = init]: a new cell, whose address stands for [x]. *)
Definition new_variable (init : value) : M store nat :=
  fun w => Normal (length (cells w)) (mkStore (cells w ++ [init]) (outside w)).

Definition read (x : nat) : M store value :=
  fun w => Normal (default VUndefined (cells w !! x)) w.

Definition assign (x : nat) (v : value) : M store unit :=
  fun w => Normal tt (mkStore (<[x := v]> (cells w)) (outside w)).

(** A call of a function of the user. *)
Definition user_code {A} (m : M U A) : M store A :=
  fun w =>
    match m (outside w) with
    | Normal a u => Normal a (mkStore (cells w) u)
    | Throw exn u => Throw exn (mkStore (cells w) u)
    end.

(** [++x] *)
Definition successor (v : value) : value :=
  match v with
  | VNum n => VNum (n + 1)
  | _ => VNaN
  end.

Definition pre_increment (x : nat) : M store value :=
  v <- read x ;;
  assign x (successor v) ;;
  ret (successor v).

(** [v <= count] *)
Definition at_most (v : value) (count : Z) : bool :=
  match v with
  | VNum n => n <=? count
  | _ => false
  end.
End Store.
Arguments store U : clear implicits.

Record StoredObservable (U : Type) : Type := mkStoredObservable {
  subscribe_in :
    (value -> M (store U) unit) -> (value -> M (store U) unit) -> M (store U) unit ->
    M (store U) unit
}.
Arguments subscribe_in {U} _ nextFn errorFn completeFn.

Inductive stored_receiver (U : Type) : Type :=
| InstanceIn (o : StoredObservable U)
| StaticIn.
Arguments InstanceIn {U} o.
Arguments StaticIn {U}.

(** The argument of [first]: a function of the user, or another value. *)
Inductive function_or_value (U : Type) : Type :=
| FnIn (f : value -> M U value)
| NotFnIn (v : value).
Arguments FnIn {U} f.
Arguments NotFnIn {U} v.

Module RxStore.
Section Operators.
Context {U : Type}.

Definition of_ (args : list value) : StoredObservable U :=
  {| subscribe_in nextFn errorFn completeFn :=
       forEach args (fun x => nextFn x) ;;
       completeFn |}.

Definition fromArray (args : option (list value)) : StoredObservable U :=
  let args := match args with Some a => a | None => [] end in
  of_ args.

Definition filter (predicate : value -> M U value)
    (thisArgs : option (StoredObservable U)) (this : stored_receiver U) :
    StoredObservable U :=
  {| subscribe_in nextFn errorFn completeFn :=
       let next := fun val =>
         passed <- user_code (predicate val) ;;
         if truthy passed then nextFn val else ret tt in
       match thisArgs with
       | Some source => subscribe_in source next errorFn completeFn
       | None =>
           match this with
           | InstanceIn o => subscribe_in o next errorFn completeFn
           | StaticIn => throw not_a_function
           end
       end |}.

Definition take (count : Z) (this : StoredObservable U) : StoredObservable U :=
  {| subscribe_in nextFn errorFn completeFn :=
       i <- new_variable (VNum 0) ;;
       subscribe_in this
         (fun val =>
            v <- pre_increment i ;;
            if at_most v count then nextFn val else ret tt)
         errorFn completeFn |}.

Definition first (predicate : function_or_value U) (this : StoredObservable U) :
    StoredObservable U :=
  {| subscribe_in nextFn errorFn completeFn :=
       bool_ <- new_variable (VBool true) ;;
       subscribe_in this
         (fun val =>
            b <- read bool_ ;;
            if truthy b then
              match predicate with
              | FnIn f =>
                  passed <- user_code (f val) ;;
                  if truthy passed
                  then assign bool_ (VBool false) ;; nextFn val
                  else ret tt
              | NotFnIn p =>
                  if strict_eq p VUndefined
                  then assign bool_ (VBool false) ;; nextFn val
                  else ret tt
              end
            else ret tt)
         errorFn completeFn |}.

Definition skip (the : value) (this : StoredObservable U) : StoredObservable U :=
  {| subscribe_in nextFn errorFn completeFn :=
       bool_ <- new_variable (VBool false) ;;
       subscribe_in this
         (fun val =>
            b <- read bool_ ;;
            if truthy b then nextFn val
            else if strict_eq val the then assign bool_ (VBool true)
            else ret tt)
         errorFn completeFn |}.

End Operators.
End RxStore.

(** ** Observing a subscription *)

(** One call of a callback of the observer. *)
Inductive notification : Type :=
| Next (v : value)
| Error (err : value)
| Complete.

Definition notify {S} (nextFn : nextFn_t S) (errorFn : errorFn_t S)
    (completeFn : completeFn_t S) (n : notification) : M S unit :=
  match n with
  | Next v => nextFn v
  | Error err => errorFn err
  | Complete => completeFn
  end.

(** Calling the callbacks as [calls] lists them, one after the other. *)
Definition replay {S} (nextFn : nextFn_t S) (errorFn : errorFn_t S)
    (completeFn : completeFn_t S) (calls : list notification) : M S unit :=
  forEach calls (notify nextFn errorFn completeFn).

(** [emits o calls]: whatever the callbacks are, subscribing to [o] calls
    them exactly as [calls] lists, and does nothing else. *)
Definition emits (o : Observable) (calls : list notification) : Prop :=
  forall (S : Type) (nextFn : nextFn_t S) (errorFn : errorFn_t S)
         (completeFn : completeFn_t S) (s : S),
    subscribe o nextFn errorFn completeFn s = replay nextFn errorFn completeFn calls s.

(** A synchronous producer that makes the given calls on its observer: the
    upstream of the statements that quantify over every upstream sequence. *)
Definition producer (calls : list notification) : Observable :=
  {| subscribe S nextFn errorFn completeFn := replay nextFn errorFn completeFn calls |}.

(** The observer of the test suite: it appends what it receives to a log. *)
Definition record (n : notification) : M (list notification) unit :=
  fun log => Normal tt (log ++ [n]).

Definition trace (o : Observable) : completion (list notification) unit :=
  subscribe o (fun v => record (Next v)) (fun err => record (Error err)) (record Complete) [].

Definition values (calls : list notification) : list value :=
  omap (fun n => match n with Next v => Some v | _ => None end) calls.

Definition errors (calls : list notification) : list value :=
  omap (fun n => match n with Error err => Some err | _ => None end) calls.

Definition is_next (n : notification) : bool :=
  match n with Next _ => true | _ => false end.

(** The calls of [error] and [complete], in order. *)
Definition terminals (calls : list notification) : list notification :=
  List.filter (fun n => negb (is_next n)) calls.

(** The calls a filtering operator lets through: [error] and [complete]
    always, and a value [v] when [keep prev v] holds, [prev] being the values
    the upstream sent before [v]. *)
Fixpoint forward_where (keep : list value -> value -> bool) (prev : list value)
    (calls : list notification) : list notification :=
  match calls with
  | [] => []
  | Next v :: rest =>
      (if keep prev v then [Next v] else []) ++ forward_where keep (prev ++ [v]) rest
  | n :: rest => n :: forward_where keep prev rest
  end.

(** [take]: the value at 1-based position [length prev + 1] passes iff that
    position is at most [count]. *)
Definition within_count (count : Z) (prev : list value) (_ : value) : bool :=
  Z.of_nat (length prev) + 1 <=? count.

(** [skip]: a value passes iff an earlier value was [=== the]. *)
Definition after_match (the : value) (prev : list value) (_ : value) : bool :=
  existsb (fun u => strict_eq u the) prev.

(** [first]: the predicate that selects, for a function [f] the values on
    which it is truthy, for [undefined] every value, for anything else none. *)
Definition selects (predicate : fn_or_value) (v : value) : bool :=
  match predicate with
  | Fn f => truthy (f v)
  | NotFn p => strict_eq p VUndefined
  end.

(** [first]: a value passes iff it is selected and no earlier one was. *)
Definition first_selected (predicate : fn_or_value) (prev : list value) (v : value) : bool :=
  selects predicate v && negb (existsb (selects predicate) prev).

(** The values after the first one that satisfies [P]. *)
Fixpoint after_first (P : value -> bool) (vs : list value) : list value :=
  match vs with
  | [] => []
  | v :: rest => if P v then rest else after_first P rest
  end.

(** A producer that respects the protocol: values, then at most one call of
    [error] or [complete], and nothing after it. *)
Definition protocol (calls : list notification) : Prop :=
  exists vs, calls = Next <$> vs \/
             (exists err, calls = (Next <$> vs) ++ [Error err]) \/
             calls = (Next <$> vs) ++ [Complete].

(** [map]: the values pass through the projection. *)
Definition project (projection : value -> value) (n : notification) : notification :=
  match n with
  | Next v => Next (projection v)
  | _ => n
  end.

(** [filter]: a value passes iff the predicate is truthy on it. *)
Definition passes (predicate : value -> value) (n : notification) : bool :=
  match n with
  | Next v => truthy (predicate v)
  | _ => true
  end.

(** The observable that [map] and [filter] subscribe to: the second argument
    when it is an observable, the receiver otherwise. *)
Definition source_of (thisArgs : option Observable) (this : receiver) : option Observable :=
  match thisArgs, this with
  | Some source, _ => Some source
  | None, Instance o => Some o
  | None, Static => None
  end.

(** [concat]: what the inner [callback] forwards of one observable, and
    whether that observable completed during its [subscribe]. *)
Definition without_complete (calls : list notification) : list notification :=
  List.filter (fun n => match n with Complete => false | _ => true end) calls.

Definition has_complete (calls : list notification) : bool :=
  existsb (fun n => match n with Complete => true | _ => false end) calls.

(** The calls of [callback] over observables that emit [sources]: the next
    one is subscribed to only if the one before completed. *)
Fixpoint chained (sources : list (list notification)) : list notification :=
  match sources with
  | [] => []
  | calls :: rest =>
      without_complete calls ++ (if has_complete calls then chained rest else [])
  end.

(** The calls of [this.concat(...)]: [callback] runs at every [complete] of
    the receiver, and [completeFn] once at the end. *)
Definition concat_calls (this_calls : list notification)
    (sources : list (list notification)) : list notification :=
  flat_map (fun n => match n with Complete => chained sources | _ => [n] end) this_calls
  ++ [Complete].

(** The operators that pass [errorFn] on to their source untouched, each in
    the ways it can be called: [map] and [filter] as a method of the source
    or statically with the source as second argument. *)
Inductive pass_through : Type :=
| MapMethod (projection : value -> value)
| MapStatic (projection : value -> value) (this : receiver)
| FilterMethod (predicate : value -> value)
| FilterStatic (predicate : value -> value) (this : receiver)
| MapTo (constant : value)
| StartWith (args : list value).

Definition apply_to (operator : pass_through) (source : Observable) : Observable :=
  match operator with
  | MapMethod projection => Rx.map projection None (Instance source)
  | MapStatic projection this => Rx.map projection (Some source) this
  | FilterMethod predicate => Rx.filter predicate None (Instance source)
  | FilterStatic predicate this => Rx.filter predicate (Some source) this
  | MapTo constant => Rx.mapTo constant source
  | StartWith args => Rx.startWith args source
  end.

(** The observables that the synchronous operators of the library build:
    the creation operators [of] and [fromArray], the filtering operators,
    and the transformation and combination operators, [map], [filter] and
    [concat] in both of their calling conventions. *)
#[warnings="-register-all"]
Inductive pipeline : Type :=
| POf (args : list value)
| PFromArray (args : option (list value))
| PFilter (predicate : value -> value) (source : pipeline)
| PFilterStatic (predicate : value -> value) (this : receiver) (source : pipeline)
| PTake (count : Z) (source : pipeline)
| PFirst (predicate : fn_or_value) (source : pipeline)
| PSkip (the : value) (source : pipeline)
| PMap (projection : value -> value) (source : pipeline)
| PMapStatic (projection : value -> value) (this : receiver) (source : pipeline)
| PMapTo (constant : value) (source : pipeline)
| PStartWith (args : list value) (source : pipeline)
| PConcat (source : pipeline) (observables : list pipeline)
| PConcatStatic (observables : list pipeline).

Fixpoint build (p : pipeline) : Observable :=
  match p with
  | POf args => Rx.of_ args
  | PFromArray args => Rx.fromArray args
  | PFilter predicate source => Rx.filter predicate None (Instance (build source))
  | PFilterStatic predicate this source => Rx.filter predicate (Some (build source)) this
  | PTake count source => Rx.take count (build source)
  | PFirst predicate source => Rx.first predicate (build source)
  | PSkip the source => Rx.skip the (build source)
  | PMap projection source => Rx.map projection None (Instance (build source))
  | PMapStatic projection this source => Rx.map projection (Some (build source)) this
  | PMapTo constant source => Rx.mapTo constant (build source)
  | PStartWith args source => Rx.startWith args (build source)
  | PConcat source observables =>
      Rx.concat (List.map build observables) (Instance (build source))
  | PConcatStatic observables => Rx.concat (List.map build observables) Static
  end.

(** *** Observing [fromPromise] *)

(** A subscription to [fromPromise(promise)], followed by the settlement of
    the promise if it is still pending ([later], when there is one), and
    then by the reaction jobs, run until the queue is empty. *)
Definition delivered {U} (nextFn : nextFn_t U) (errorFn : errorFn_t U)
    (completeFn : completeFn_t U) (p : nat) (later : option settlement)
    (fuel : nat) (w : runtime U) : option (runtime U) :=
  let w1 :=
    state_of (subscribe_later (Rx.fromPromise (Some (VPromise p)))
                nextFn errorFn completeFn w) in
  let w2 :=
    match later with
    | Some outcome => state_of (settle p outcome w1)
    | None => w1
    end in
  drain fuel w2.

(** The two reactions that [subscribe] registers: [val => nextFn(val)] on
    the promise, [() => completeFn()] on the promise derived from it. *)
Definition reaction1 {U} (nextFn : nextFn_t U) (q1 : nat) : reaction U :=
  mkReaction (fun val => nextFn val) q1.
Definition reaction2 {U} (completeFn : completeFn_t U) (q2 : nat) : reaction U :=
  mkReaction (fun _ => completeFn) q2.

(** How a promise ends up: as it is if settled, as [later] says if pending. *)
Definition eventual {U} (st : promise_state U) (later : option settlement) : option settlement :=
  match st with
  | Settled outcome => Some outcome
  | Pending _ => later
  end.

(** What the observer of [fromPromise] is to receive. *)
Definition promised_calls (outcome : option settlement) : list notification :=
  match outcome with
  | Some (Fulfilled v) => [Next v; Complete]
  | Some (Rejected _) | None => []
  end.

(** The inputs that [from] recognises. *)
Definition recognised (input : value) : bool :=
  match input with
  | VPromise _ | VArray _ _ | VMap _ _ => true
  | VStr s => negb (String.eqb s EmptyString)
  | _ => false
  end.

(** *** The operators left to cover *)

(** The JavaScript conjunction [a && b] of two values. *)
Definition and_ (a b : value) : value := if truthy a then b else a.

(** The operators of the filtering layer. *)
Inductive filtering : Type :=
| ByFilter (predicate : value -> value)
| ByTake (count : Z)
| ByFirst (predicate : fn_or_value)
| BySkip (the : value).

Definition apply_filtering (operator : filtering) (source : Observable) : Observable :=
  match operator with
  | ByFilter predicate => Rx.filter predicate None (Instance source)
  | ByTake count => Rx.take count source
  | ByFirst predicate => Rx.first predicate source
  | BySkip the => Rx.skip the source
  end.

(** The values that the recording observer receives from [o]. *)
Definition emitted (o : Observable) : list value := values (state_of (trace o)).

(** The values of several pipelines, one pipeline after the other. *)
Definition joined (ps : list pipeline) : list value :=
  List.concat (List.map (fun q => emitted (build q)) ps).

(** The key and value held by an entry array [[key, value]]. *)
Definition entry_of (array : value) : option (value * value) :=
  match array with
  | VArray _ [k; v] => Some (k, v)
  | _ => None
  end.

(** Two observers of one fulfilled promise: what the reaction jobs do to
    the observers' state.  Both [next] callbacks run before either
    [complete], and a [complete] is left out when its [next] threw. *)
Definition interleaved {U} (next1 : nextFn_t U) (complete1 : completeFn_t U)
    (next2 : nextFn_t U) (complete2 : completeFn_t U) (v : value) (u : U) : U :=
  let r1 := next1 v u in
  let r2 := next2 v (state_of r1) in
  let u3 :=
    match r1 with
    | Normal _ _ => state_of (complete1 (state_of r2))
    | Throw _ _ => state_of r2
    end in
  match r2 with
  | Normal _ _ => state_of (complete2 u3)
  | Throw _ _ => u3
  end.

(** *** Observing [interval] *)

(** What a computation on the scheduler does to the observer. *)
Definition observed {U A} (c : completion (scheduler U) A) : completion U A :=
  match c with
  | Normal a w => Normal a (observer_state w)
  | Throw exn w => Throw exn (observer_state w)
  end.

(** [k] calls of [next], with the numbers from [i] on. *)
Fixpoint counting_from (i : Z) (k : nat) : list notification :=
  match k with
  | O => []
  | S k' => Next (VNum i) :: counting_from (i + 1) k'
  end.

(** Two observers of [interval]: the calls made when the two timers fire as
    [schedule] says ([true] for the first timer), the first having fired
    [i] times and the second [j] times. *)
Fixpoint two_counters {U} (next1 next2 : nextFn_t U) (schedule : list bool)
    (i j : Z) : M U unit :=
  match schedule with
  | [] => ret tt
  | true :: rest => next1 (VNum i) ;; two_counters next1 next2 rest (i + 1) j
  | false :: rest => next2 (VNum j) ;; two_counters next1 next2 rest i (j + 1)
  end.

(** [earlier next_ref v]: the value [v] is a primitive, or an object that
    was allocated before the counter reached [next_ref]. *)
Definition earlier (next_ref : nat) (v : value) : Prop :=
  match object_ref v with
  | Some r => (r < next_ref)%nat
  | None => True
  end.

(** *** Observing the operators over the store *)

(** The observables built from the creation operators and the filtering
    operators, with predicates that are pure functions of the value. *)
Inductive filtering_pipeline : Type :=
| QOf (args : list value)
| QFromArray (args : option (list value))
| QFilter (predicate : value -> value) (source : filtering_pipeline)
| QFilterStatic (predicate : value -> value) (source : filtering_pipeline)
| QTake (count : Z) (source : filtering_pipeline)
| QFirst (predicate : fn_or_value) (source : filtering_pipeline)
| QSkip (the : value) (source : filtering_pipeline).

(** A function of the user that only computes its result. *)
Definition pure_function {U} (f : value -> value) : value -> M U value :=
  fun v => ret (f v).

Definition pure_argument {U} (predicate : fn_or_value) : function_or_value U :=
  match predicate with
  | Fn f => FnIn (pure_function f)
  | NotFn v => NotFnIn v
  end.

Fixpoint build_in {U} (q : filtering_pipeline) : StoredObservable U :=
  match q with
  | QOf args => RxStore.of_ args
  | QFromArray args => RxStore.fromArray args
  | QFilter predicate source =>
      RxStore.filter (pure_function predicate) None (InstanceIn (build_in source))
  | QFilterStatic predicate source =>
      RxStore.filter (pure_function predicate) (Some (build_in source)) StaticIn
  | QTake count source => RxStore.take count (build_in source)
  | QFirst predicate source => RxStore.first (pure_argument predicate) (build_in source)
  | QSkip the source => RxStore.skip the (build_in source)
  end.

(** The values that a pipeline is to deliver, operator by operator: the
    arguments of [of], those on which the predicate of [filter] is truthy,
    the first [count] for [take], the first selected one for [first], those
    after the first match for [skip]. *)
Fixpoint delivered_values (q : filtering_pipeline) : list value :=
  match q with
  | QOf args => args
  | QFromArray (Some args) => args
  | QFromArray None => []
  | QFilter predicate source | QFilterStatic predicate source =>
      List.filter (fun v => truthy (predicate v)) (delivered_values source)
  | QTake count source => take (Z.to_nat count) (delivered_values source)
  | QFirst predicate source => option_list (find (selects predicate) (delivered_values source))
  | QSkip the source => after_first (fun v => strict_eq v the) (delivered_values source)
  end.

(** The calls of a pipeline, operator by operator. *)
Fixpoint pipeline_calls (q : filtering_pipeline) : list notification :=
  match q with
  | QOf args => (Next <$> args) ++ [Complete]
  | QFromArray (Some args) => (Next <$> args) ++ [Complete]
  | QFromArray None => [Complete]
  | QFilter predicate source | QFilterStatic predicate source =>
      List.filter (passes predicate) (pipeline_calls source)
  | QTake count source => forward_where (within_count count) [] (pipeline_calls source)
  | QFirst predicate source =>
      forward_where (first_selected predicate) [] (pipeline_calls source)
  | QSkip the source => forward_where (after_match the) [] (pipeline_calls source)
  end.

(** What a computation on the store does to the user's state. *)
Definition seen {U A} (c : completion (store U) A) : completion U A :=
  match c with
  | Normal a w => Normal a (outside w)
  | Throw exn w => Throw exn (outside w)
  end.

(** The same outcome, in a store with further cells [post] at the end. *)
Definition extend {U A} (post : list value) (c : completion (store U) A) :
    completion (store U) A :=
  match c with
  | Normal a w => Normal a (mkStore (cells w ++ post) (outside w))
  | Throw exn w => Throw exn (mkStore (cells w ++ post) (outside w))
  end.

(** [framed k m]: the computation [m] uses the first [k] cells only: it
    behaves the same whatever cells follow, leaves those alone, and makes
    no new one. *)
Definition framed {U A} (k : nat) (m : M (store U) A) : Prop :=
  forall pre post u,
    length pre = k ->
    m (mkStore (pre ++ post) u) = extend post (m (mkStore pre u))
    /\ length (cells (state_of (m (mkStore pre u)))) = k.

(** [emits_in o calls]: whatever callbacks it is given, if they use the
    cells present at the call only, subscribing to [o] calls them exactly as
    [calls] lists; the cells present are left as the callbacks leave them,
    and the cells that the subscription made stay behind at the end of the
    store. *)
Definition emits_in {U} (o : StoredObservable U) (calls : list notification) : Prop :=
  forall k (nextFn errorFn : value -> M (store U) unit) (completeFn : M (store U) unit),
    (forall v, framed k (nextFn v)) -> (forall err, framed k (errorFn err)) ->
    framed k completeFn ->
    forall pre u, length pre = k ->
      exists left_behind,
        subscribe_in o nextFn errorFn completeFn (mkStore pre u)
        = extend left_behind (replay nextFn errorFn completeFn calls (mkStore pre u)).

(** An observer that records what it receives, next to a counter [k] that
    belongs to the user, and the stateful predicate [x => ++k <= 2]. *)
Definition record_beside (n : notification) : M (Z * list notification) unit :=
  fun '(k, log) => Normal tt (k, log ++ [n]).

Definition counts_to_two (_ : value) : M (Z * list notification) value :=
  fun '(k, log) => Normal (VBool (k + 1 <=? 2)) (k + 1, log).

(** Subscribing the recording observer to [o]. *)
Definition subscribe_recording (o : StoredObservable (Z * list notification)) :
    M (store (Z * list notification)) unit :=
  subscribe_in o
    (fun v => user_code (record_beside (Next v)))
    (fun err => user_code (record_beside (Error err)))
    (user_code (record_beside Complete)).

(** The log of the recording observer at the end. *)
Definition log_of (c : completion (store (Z * list notification)) unit) : list notification :=
  snd (outside (state_of c)).

(** *** Inputs of the test suite *)

(** [val => val + 10] and [num => num % 2 === 0], on numbers. *)
Definition plus_ten (v : value) : value :=
  match v with VNum n => VNum (n + 10) | _ => VNaN end.

Definition is_even (v : value) : value :=
  match v with VNum n => VBool (n mod 2 =? 0) | _ => VBool false end.

Definition one_to_five : list value := [VNum 1; VNum 2; VNum 3; VNum 4; VNum 5].

(** ** Basic facts *)

Lemma bind_assoc {S A B C} (m : M S A) (f : A -> M S B) (g : B -> M S C) s :
  bind (bind m f) g s = bind m (fun x => bind (f x) g) s.
Proof. unfold bind. destruct (m s); reflexivity. Qed.

Lemma bind_ext {S A B} (m : M S A) (k k' : A -> M S B) s :
  (forall a s', k a s' = k' a s') -> bind m k s = bind m k' s.
Proof. intros H. unfold bind. destruct (m s); auto. Qed.

Lemma bind_ext_l {S A B} (m m' : M S A) (k k' : A -> M S B) s :
  (forall s', m s' = m' s') -> (forall a s', k a s' = k' a s') ->
  bind m k s = bind m' k' s.
Proof. intros Hm Hk. unfold bind. rewrite Hm. destruct (m' s); auto. Qed.

Lemma forEach_app {S A} (xs ys : list A) (f : A -> M S unit) s :
  forEach (xs ++ ys) f s = (forEach xs f ;; forEach ys f) s.
Proof.
  revert s. induction xs as [|x xs IH]; intros s; simpl.
  - reflexivity.
  - rewrite bind_assoc. apply bind_ext. intros [] s'. apply IH.
Qed.

Lemma forEach_fmap {S A B} (g : A -> B) (xs : list A) (f : B -> M S unit) s :
  forEach (g <$> xs) f s = forEach xs (fun x => f (g x)) s.
Proof.
  revert s. induction xs as [|x xs IH]; intros s; simpl.
  - reflexivity.
  - apply bind_ext. intros [] s'. apply IH.
Qed.

Lemma forEach_ext {S A} (xs : list A) (f g : A -> M S unit) s :
  (forall x s', f x s' = g x s') -> forEach xs f s = forEach xs g s.
Proof.
  intros H. revert s. induction xs as [|x xs IH]; intros s; simpl.
  - reflexivity.
  - unfold bind. rewrite H. destruct (g x s); auto.
Qed.

Lemma replay_app {S} (n : nextFn_t S) e c xs ys s :
  replay n e c (xs ++ ys) s = (replay n e c xs ;; replay n e c ys) s.
Proof. apply forEach_app. Qed.

Lemma replay_cons {S} (n : nextFn_t S) e c x xs s :
  replay n e c (x :: xs) s = (notify n e c x ;; replay n e c xs) s.
Proof. reflexivity. Qed.

Lemma replay_nexts {S} (n : nextFn_t S) e c vs s :
  replay n e c (Next <$> vs) s = forEach vs (fun x => n x) s.
Proof. unfold replay. rewrite forEach_fmap. reflexivity. Qed.

Lemma producer_emits calls : emits (producer calls) calls.
Proof. intros S n e c s. reflexivity. Qed.

(** The log of the recording observer is the list of calls. *)
Lemma replay_record calls log :
  replay (fun v => record (Next v)) (fun err => record (Error err)) (record Complete)
    calls log = Normal tt (log ++ calls).
Proof.
  revert log. induction calls as [|n calls IH]; intros log.
  - simpl. unfold ret. by rewrite app_nil_r.
  - rewrite replay_cons. unfold bind.
    destruct n; simpl; unfold record; rewrite IH, <- app_assoc; reflexivity.
Qed.

Lemma emits_trace o calls : emits o calls -> trace o = Normal tt calls.
Proof. intros H. unfold trace. rewrite H. apply replay_record. Qed.

Lemma of_emits args : emits (Rx.of_ args) ((Next <$> args) ++ [Complete]).
Proof.
  intros S n e c s. simpl. rewrite replay_app.
  unfold bind. rewrite replay_nexts.
  destruct (forEach args _ s) as [[] s'|]; [|reflexivity].
  cbn. unfold bind, ret. destruct (c s') as [[] ?|]; reflexivity.
Qed.

(** ** Local variables *)

Lemma let_local_outer {L S A B} (l : L) (m : M S A) (k : A -> M (L * S) B) s :
  let_local l (x <- outer m ;; k x) s = (x <- m ;; let_local l (k x)) s.
Proof. unfold let_local, bind, outer. destruct (m s); reflexivity. Qed.

Lemma let_local_ret {L S A} (l : L) (a : A) (s : S) :
  let_local l (ret a) s = ret a s.
Proof. reflexivity. Qed.

Lemma let_local_get {L S B} (l : L) (k : L -> M (L * S) B) s :
  let_local l (x <- get_local ;; k x) s = let_local l (k l) s.
Proof. reflexivity. Qed.

Lemma let_local_set {L S B} (l l' : L) (k : M (L * S) B) (s : S) :
  let_local l (set_local l' ;; k) s = let_local l' k s.
Proof. reflexivity. Qed.

Lemma let_local_pre_incr {S B} (i : Z) (k : Z -> M (Z * S) B) (s : S) :
  let_local i (x <- pre_incr ;; k x) s = let_local (i + 1) (k (i + 1)) s.
Proof. reflexivity. Qed.

(** A filtering operator keeps in a local variable what it needs to know of
    the values seen so far ([inv]); if its [next] callback forwards [v]
    exactly when [keep prev v], the subscription makes the calls of
    [forward_where]. *)
Lemma let_local_forward {L S} (keep : list value -> value -> bool)
    (inv : L -> list value -> Prop) (cb : value -> M (L * S) unit)
    (n : nextFn_t S) (e : errorFn_t S) (c : completeFn_t S) :
  (forall l prev v, inv l prev ->
     exists l', inv l' (prev ++ [v]) /\
       forall (k : M (L * S) unit) s,
         let_local l (cb v ;; k) s
         = ((if keep prev v then n v else ret tt) ;; let_local l' k) s) ->
  forall calls l prev s, inv l prev ->
    let_local l (replay cb (fun err => outer (e err)) (outer c) calls) s
    = replay n e c (forward_where keep prev calls) s.
Proof.
  intros Hstep calls. induction calls as [|call calls IH]; intros l prev s Hinv.
  - reflexivity.
  - change (replay cb (fun err => outer (e err)) (outer c) (call :: calls))
      with (notify cb (fun err => outer (e err)) (outer c) call ;;
            replay cb (fun err => outer (e err)) (outer c) calls).
    destruct call as [v|err|]; cbn [notify forward_where].
    + destruct (Hstep l prev v Hinv) as (l' & Hinv' & Hcb).
      rewrite Hcb, replay_app.
      apply bind_ext_l; [|intros [] s'; by apply IH].
      intros s'. destruct (keep prev v); cbn; unfold bind, ret.
      * by destruct (n v s') as [[] ?|].
      * reflexivity.
    + rewrite let_local_outer, replay_cons. apply bind_ext. intros [] s'. by apply IH.
    + rewrite let_local_outer, replay_cons. apply bind_ext. intros [] s'. by apply IH.
Qed.

Lemma let_local_ext {L S A} (l : L) (m m' : M (L * S) A) s :
  (forall s', m s' = m' s') -> let_local l m s = let_local l m' s.
Proof. intros H. unfold let_local. by rewrite H. Qed.

(** ** What each operator emits *)

Lemma take_emits count o calls :
  emits o calls ->
  emits (Rx.take count o) (forward_where (within_count count) [] calls).
Proof.
  intros Ho S n e c s. cbn [subscribe Rx.take].
  erewrite let_local_ext by apply Ho.
  apply (let_local_forward _ (fun i prev => i = Z.of_nat (length prev))); [|done].
  intros i prev v ->. exists (Z.of_nat (length (prev ++ [v]))). split; [done|].
  intros k s'. rewrite length_app. cbn [length].
  replace (Z.of_nat (length prev + 1)) with (Z.of_nat (length prev) + 1) by lia.
  unfold let_local, bind, pre_incr, outer, within_count.
  destruct (_ <=? count); [|reflexivity].
  by destruct (n v s') as [[] ?|].
Qed.

Lemma skip_emits the o calls :
  emits o calls ->
  emits (Rx.skip the o) (forward_where (after_match the) [] calls).
Proof.
  intros Ho S n e c s. cbn [subscribe Rx.skip].
  erewrite let_local_ext by apply Ho.
  apply (let_local_forward _ (fun b prev => b = after_match the prev VUndefined)); [|done].
  intros b prev v ->. exists (after_match the (prev ++ [v]) VUndefined). split; [done|].
  intros k s'. unfold after_match. rewrite existsb_app. cbn [existsb].
  rewrite orb_false_r.
  unfold let_local, bind, get_local, set_local, outer, ret.
  destruct (existsb _ prev); cbn.
  - by destruct (n v s') as [[] ?|].
  - by destruct (strict_eq v the).
Qed.

Lemma first_emits predicate o calls :
  emits o calls ->
  emits (Rx.first predicate o) (forward_where (first_selected predicate) [] calls).
Proof.
  intros Ho S n e c s. cbn [subscribe Rx.first].
  erewrite let_local_ext by apply Ho.
  apply (let_local_forward _
           (fun b prev => b = negb (existsb (selects predicate) prev))); [|done].
  intros b prev v ->. exists (negb (existsb (selects predicate) (prev ++ [v]))).
  split; [done|].
  intros k s'. unfold first_selected. rewrite existsb_app. cbn [existsb].
  rewrite orb_false_r.
  unfold let_local, bind, get_local, set_local, outer, ret, selects.
  destruct (existsb _ prev); cbn.
  - by rewrite andb_false_r.
  - rewrite andb_true_r.
    destruct predicate as [f|p]; [destruct (truthy (f v))|destruct (strict_eq p VUndefined)];
      cbn; try reflexivity; by destruct (n v s') as [[] ?|].
Qed.

Lemma map_emits projection thisArgs this source calls :
  source_of thisArgs this = Some source ->
  emits source calls ->
  emits (Rx.map projection thisArgs this) (project projection <$> calls).
Proof.
  intros Hsrc Ho S n e c s.
  assert (subscribe (Rx.map projection thisArgs this) n e c s
          = subscribe source (fun val => n (projection val)) e c s) as ->.
  { destruct thisArgs, this; simplify_eq/=; reflexivity. }
  rewrite Ho. unfold replay. rewrite forEach_fmap.
  apply forEach_ext. by intros [].
Qed.

Lemma mapTo_emits constant o calls :
  emits o calls ->
  emits (Rx.mapTo constant o) (project (fun _ => constant) <$> calls).
Proof.
  intros Ho S n e c s. cbn [subscribe Rx.mapTo]. rewrite Ho.
  unfold replay. rewrite forEach_fmap. apply forEach_ext. by intros [].
Qed.

Lemma filter_emits predicate thisArgs this source calls :
  source_of thisArgs this = Some source ->
  emits source calls ->
  emits (Rx.filter predicate thisArgs this) (List.filter (passes predicate) calls).
Proof.
  intros Hsrc Ho S n e c s.
  assert (subscribe (Rx.filter predicate thisArgs this) n e c s
          = subscribe source
              (fun val => if truthy (predicate val) then n val else ret tt) e c s) as ->.
  { destruct thisArgs, this; simplify_eq/=; reflexivity. }
  rewrite Ho. clear. revert s.
  induction calls as [|call calls IH]; intros s; [reflexivity|].
  rewrite replay_cons. cbn [List.filter].
  destruct call as [v|err|]; cbn [passes notify].
  - destruct (truthy (predicate v)).
    + rewrite replay_cons. by apply bind_ext; intros [].
    + unfold bind, ret. apply IH.
  - rewrite replay_cons. by apply bind_ext; intros [].
  - rewrite replay_cons. by apply bind_ext; intros [].
Qed.

Lemma startWith_emits args o calls :
  emits o calls ->
  emits (Rx.startWith args o) ((Next <$> args) ++ calls).
Proof.
  intros Ho S n e c s. cbn [subscribe Rx.startWith].
  rewrite replay_app. apply bind_ext_l.
  - intros s'. by rewrite replay_nexts.
  - intros [] s'. rewrite Ho. unfold replay. apply forEach_ext. by intros [].
Qed.

Lemma replay_one {S} (n : nextFn_t S) e c call s :
  replay n e c [call] s = notify n e c call s.
Proof. cbn. unfold bind, ret. by destruct (notify n e c call s) as [[] ?|]. Qed.

Lemma has_complete_nexts vs : has_complete (Next <$> vs) = false.
Proof. induction vs as [|v vs IH]; [done|apply IH]. Qed.

Lemma without_complete_nexts vs : without_complete (Next <$> vs) = Next <$> vs.
Proof. induction vs as [|v vs IH]; [done|]. cbn. by f_equal. Qed.

Lemma has_complete_app xs ys : has_complete (xs ++ ys) = has_complete xs || has_complete ys.
Proof. apply existsb_app. Qed.

Lemma without_complete_app xs ys :
  without_complete (xs ++ ys) = without_complete xs ++ without_complete ys.
Proof. apply List.filter_app. Qed.

Lemma replay_cons_bind {S A} (n : nextFn_t S) e c call calls (K : M S A) s :
  (replay n e c (call :: calls) ;; K) s
  = (notify n e c call ;; replay n e c calls ;; K) s.
Proof. apply (bind_assoc (notify n e c call)). Qed.

(** One observable inside [callback]: its values and errors are forwarded,
    and [isDone] ends up set iff it was set before or the observable
    completed. *)
Lemma callback_one {S} (n : nextFn_t S) (e : errorFn_t S) c calls
    (K : M (bool * S) unit) isDone s :
  let_local isDone
    (replay (fun v => outer (n v)) (fun err => outer (e err)) (set_local true) calls ;; K) s
  = (replay n e c (without_complete calls) ;;
     let_local (isDone || has_complete calls) K) s.
Proof.
  revert isDone s. induction calls as [|call calls IH]; intros isDone s.
  - cbn. by rewrite orb_false_r.
  - erewrite let_local_ext by (intros; apply bind_assoc).
    destruct call as [v|err|]; cbn [notify without_complete has_complete existsb List.filter].
    + rewrite let_local_outer, replay_cons_bind. apply bind_ext. intros [] s'.
      rewrite IH. reflexivity.
    + rewrite let_local_outer, replay_cons_bind. apply bind_ext. intros [] s'.
      rewrite IH. reflexivity.
    + rewrite let_local_set, IH. by rewrite orb_true_r.
Qed.

Lemma callback_loop {S} (n : nextFn_t S) (e : errorFn_t S) c observables sources :
  Forall2 emits observables sources ->
  forall isDone s,
    let_local isDone
      (forEach observables (fun obs =>
         isDone <- get_local ;;
         if isDone : bool then
           set_local false ;;
           subscribe obs (fun v => outer (n v)) (fun err => outer (e err)) (set_local true)
         else ret tt)) s
    = replay n e c (if isDone then chained sources else []) s.
Proof.
  induction 1 as [|obs calls observables sources Hobs _ IH]; intros isDone s.
  - by destruct isDone.
  - cbn [forEach]. destruct isDone.
    + (* isDone is set: clear it and subscribe *)
      match goal with
      | |- let_local true (_ ;; ?K) s = _ =>
          transitivity
            (let_local false
               (subscribe obs (fun v => outer (n v)) (fun err => outer (e err))
                  (set_local true) ;; K) s);
          [reflexivity|]
      end.
      etransitivity.
      { apply (let_local_ext false); intros s'.
        apply bind_ext_l; [apply Hobs|reflexivity]. }
      rewrite (callback_one n e c). cbn [chained orb]. rewrite replay_app.
      apply bind_ext. intros [] s'. apply IH.
    + (* isDone is clear: the observable is passed over *)
      apply (IH false).
Qed.

Lemma callback_emits {S} (n : nextFn_t S) (e : errorFn_t S) c observables sources s :
  Forall2 emits observables sources ->
  Rx.concat_callback observables n e s = replay n e c (chained sources) s.
Proof. intros H. apply (callback_loop n e c _ _ H true). Qed.

Lemma concat_static_emits observables sources :
  Forall2 emits observables sources ->
  emits (Rx.concat observables Static) (chained sources ++ [Complete]).
Proof.
  intros H S n e c s. cbn [subscribe Rx.concat]. rewrite replay_app.
  apply bind_ext_l.
  - intros s'. by apply callback_emits.
  - intros [] s'. by rewrite replay_one.
Qed.

Lemma concat_emits o this_calls observables sources :
  emits o this_calls ->
  Forall2 emits observables sources ->
  emits (Rx.concat observables (Instance o)) (concat_calls this_calls sources).
Proof.
  intros Ho H S n e c s. cbn [subscribe Rx.concat]. unfold concat_calls.
  rewrite replay_app. apply bind_ext_l; [|intros [] s'; by rewrite replay_one].
  clear s. intros s. rewrite Ho. clear Ho.
  revert s. induction this_calls as [|call calls IH]; intros s; [reflexivity|].
  rewrite replay_cons. cbn [flat_map]. rewrite replay_app.
  apply bind_ext_l; [|by intros []].
  intros s'. destruct call; cbn [notify].
  - by rewrite replay_one.
  - by rewrite replay_one.
  - by apply callback_emits.
Qed.

(** ** Values and terminal calls of what a filtering operator forwards *)

Lemma values_app xs ys : values (xs ++ ys) = values xs ++ values ys.
Proof. apply omap_app. Qed.

Lemma terminals_app xs ys : terminals (xs ++ ys) = terminals xs ++ terminals ys.
Proof. apply List.filter_app. Qed.

Lemma values_nexts vs : values (Next <$> vs) = vs.
Proof. induction vs as [|v vs IH]; [done|]. cbn. by f_equal. Qed.

Lemma values_filter predicate calls :
  values (List.filter (passes predicate) calls)
  = List.filter (fun v => truthy (predicate v)) (values calls).
Proof.
  unfold values.
  induction calls as [|[v|err|] calls IH]; cbn in *; [done| |done|done].
  destruct (truthy (predicate v)); cbn; by rewrite IH.
Qed.

Lemma forward_where_terminals keep prev calls :
  terminals (forward_where keep prev calls) = terminals calls.
Proof.
  revert prev. induction calls as [|[v|err|] calls IH]; intros prev; cbn [forward_where].
  - done.
  - rewrite terminals_app, IH. by destruct (keep prev v).
  - cbn. by rewrite IH.
  - cbn. by rewrite IH.
Qed.

Lemma take_values count prev calls :
  values (forward_where (within_count count) prev calls)
  = take (Z.to_nat count - length prev) (values calls).
Proof.
  revert prev. induction calls as [|[v|err|] calls IH]; intros prev; cbn [forward_where].
  - cbn. by rewrite take_nil.
  - rewrite values_app, IH, length_app. cbn [length values omap].
    unfold within_count. destruct (Z.leb_spec (Z.of_nat (length prev) + 1) count).
    + replace (Z.to_nat count - length prev)%nat
        with (S (Z.to_nat count - (length prev + 1)))%nat by lia.
      reflexivity.
    + replace (Z.to_nat count - length prev)%nat with 0%nat by lia.
      replace (Z.to_nat count - (length prev + 1))%nat with 0%nat by lia.
      reflexivity.
  - apply IH.
  - apply IH.
Qed.

Lemma skip_values the prev calls :
  values (forward_where (after_match the) prev calls)
  = if existsb (fun u => strict_eq u the) prev then values calls
    else after_first (fun u => strict_eq u the) (values calls).
Proof.
  revert prev. induction calls as [|[v|err|] calls IH]; intros prev; cbn [forward_where].
  - by destruct (existsb _ prev).
  - rewrite values_app, IH, existsb_app. unfold after_match. cbn.
    destruct (existsb _ prev); cbn; [done|].
    rewrite orb_false_r. by destruct (strict_eq v the).
  - apply IH.
  - apply IH.
Qed.

Lemma first_values predicate prev calls :
  values (forward_where (first_selected predicate) prev calls)
  = if existsb (selects predicate) prev then []
    else option_list (find (selects predicate) (values calls)).
Proof.
  revert prev. induction calls as [|[v|err|] calls IH]; intros prev; cbn [forward_where].
  - by destruct (existsb _ prev).
  - rewrite values_app, IH, existsb_app. unfold first_selected. cbn.
    destruct (existsb _ prev); cbn.
    + by rewrite andb_false_r.
    + rewrite andb_true_r, orb_false_r. by destruct (selects predicate v).
  - apply IH.
  - apply IH.
Qed.

(** ** The expectations of the test suite *)

Example test_of : trace (Rx.of_ one_to_five) = Normal tt ((Next <$> one_to_five) ++ [Complete]).
Proof. reflexivity. Qed.

Example test_map :
  trace (Rx.map plus_ten None (Instance (Rx.of_ one_to_five)))
  = Normal tt [Next (VNum 11); Next (VNum 12); Next (VNum 13); Next (VNum 14);
               Next (VNum 15); Complete].
Proof. reflexivity. Qed.

Example test_mapTo :
  trace (Rx.mapTo (VStr "a") (Rx.of_ [VNum 1; VNum 2]))
  = Normal tt [Next (VStr "a"); Next (VStr "a"); Complete].
Proof. reflexivity. Qed.

Example test_filter :
  trace (Rx.filter is_even (Some (Rx.of_ one_to_five)) Static)
  = Normal tt [Next (VNum 2); Next (VNum 4); Complete].
Proof. reflexivity. Qed.

Example test_startWith :
  trace (Rx.startWith [VNum (-1); VNum 0] (Rx.of_ [VNum 1; VNum 2]))
  = Normal tt [Next (VNum (-1)); Next (VNum 0); Next (VNum 1); Next (VNum 2); Complete].
Proof. reflexivity. Qed.

Example test_concat_static :
  trace (Rx.concat [Rx.of_ [VNum 10]; Rx.of_ [VNum 20]] Static)
  = Normal tt [Next (VNum 10); Next (VNum 20); Complete].
Proof. reflexivity. Qed.

Example test_take_1 :
  trace (Rx.take 1 (Rx.of_ one_to_five)) = Normal tt [Next (VNum 1); Complete].
Proof. reflexivity. Qed.

Example test_skip :
  trace (Rx.skip (VNum 3) (Rx.of_ one_to_five))
  = Normal tt [Next (VNum 4); Next (VNum 5); Complete].
Proof. reflexivity. Qed.

(** A static call of [map] without a source fails when subscribed to. *)
Example test_map_without_source :
  trace (Rx.map plus_ten None Static) = Throw not_a_function [].
Proof. reflexivity. Qed.

(** [NaN] is not [===] to itself, so [skip(NaN)] never opens. *)
Example test_skip_NaN :
  trace (Rx.skip VNaN (Rx.of_ [VNaN; VNum 1])) = Normal tt [Complete].
Proof. reflexivity. Qed.

(** ** The claims *)

(** C1. For the synchronous chain [of(10).concat(of(20))], subscribing calls
    [next(10)], then [next(20)], and then the downstream [completeFn], once
    and after the emission of 20; this holds for every observer, and the
    recording observer logs exactly these three calls. *)
Theorem concat_of_10_of_20 :
  let o := Rx.concat [Rx.of_ [VNum 20]] (Instance (Rx.of_ [VNum 10])) in
  let calls := [Next (VNum 10); Next (VNum 20); Complete] in
  emits o calls /\ trace o = Normal tt calls.
Proof.
  assert (emits (Rx.concat [Rx.of_ [VNum 20]] (Instance (Rx.of_ [VNum 10])))
            [Next (VNum 10); Next (VNum 20); Complete]) as H.
  { apply (concat_emits _ [Next (VNum 10); Complete] _ [[Next (VNum 20); Complete]]).
    - apply (of_emits [VNum 10]).
    - repeat constructor. apply (of_emits [VNum 20]). }
  split; [exact H|]. by apply emits_trace.
Qed.

(** C4. Subscribing to [of(...vs)] calls [nextFn] once per value of [vs], in
    argument order, then [completeFn] once, and never [errorFn];
    [fromArray(arr)] is [of(...arr)], and [fromArray()] only completes. *)
Theorem of_emits_arguments_then_completes (vs : list value) :
  emits (Rx.of_ vs) ((Next <$> vs) ++ [Complete])
  /\ trace (Rx.of_ vs) = Normal tt ((Next <$> vs) ++ [Complete])
  /\ errors ((Next <$> vs) ++ [Complete]) = []
  /\ Rx.fromArray (Some vs) = Rx.of_ vs
  /\ emits (Rx.fromArray None) [Complete].
Proof.
  split_and!.
  - apply of_emits.
  - apply emits_trace, of_emits.
  - unfold errors. rewrite omap_app. cbn. rewrite app_nil_r.
    induction vs as [|v vs IH]; [done|]. apply IH.
  - reflexivity.
  - apply (of_emits []).
Qed.

(** C3. For every upstream sequence and every count, [source.take(count)]
    forwards a value iff its 1-based position among the upstream values is
    at most [count], so the forwarded values are the first [count] ones;
    [error] and [complete] are forwarded where the upstream makes them and
    nothing is completed early; [of(1,2,3,4,5).take(2)] emits 1, 2 and
    then completes. *)
Theorem take_forwards_first_count (count : Z) (source : Observable)
    (calls : list notification) :
  emits source calls ->
  let out := forward_where (within_count count) [] calls in
  emits (Rx.take count source) out
  /\ values out = take (Z.to_nat count) (values calls)
  /\ terminals out = terminals calls
  /\ trace (Rx.take 2 (Rx.of_ [VNum 1; VNum 2; VNum 3; VNum 4; VNum 5]))
     = Normal tt [Next (VNum 1); Next (VNum 2); Complete].
Proof.
  intros H out. split_and!.
  - by apply take_emits.
  - unfold out. rewrite take_values. cbn [length]. by rewrite Nat.sub_0_r.
  - apply forward_where_terminals.
  - apply emits_trace.
    apply (take_emits 2 _ _ (of_emits [VNum 1; VNum 2; VNum 3; VNum 4; VNum 5])).
Qed.

Lemma take_forwards_first_count_witness :
  let calls := [Next (VNum 7); Next (VNum 8); Next (VNum 9); Complete] in
  emits (producer calls) calls
  /\ emits (Rx.take 2 (producer calls)) [Next (VNum 7); Next (VNum 8); Complete].
Proof.
  split.
  - intros S n e c s. reflexivity.
  - apply (take_forwards_first_count 2
             (producer [Next (VNum 7); Next (VNum 8); Next (VNum 9); Complete])
             [Next (VNum 7); Next (VNum 8); Next (VNum 9); Complete]).
    intros S n e c s. reflexivity.
Defined.

(** C2. For every upstream sequence and every threshold,
    [source.skip(threshold)] forwards a value iff an earlier upstream value
    is [=== threshold]: the forwarded values are those after the first
    match, the values up to and including it are suppressed, and nothing is
    forwarded when no value matches; [error] and [complete] pass through. *)
Theorem skip_forwards_after_first_match (the : value) (source : Observable)
    (calls : list notification) :
  emits source calls ->
  let out := forward_where (after_match the) [] calls in
  emits (Rx.skip the source) out
  /\ values out = after_first (fun v => strict_eq v the) (values calls)
  /\ terminals out = terminals calls.
Proof.
  intros H out. split_and!.
  - by apply skip_emits.
  - unfold out. by rewrite skip_values.
  - apply forward_where_terminals.
Qed.

Lemma skip_forwards_after_first_match_witness :
  let calls := [Next (VNum 1); Next (VNum 3); Next (VNum 4); Next (VNum 3); Complete] in
  emits (producer calls) calls
  /\ emits (Rx.skip (VNum 3) (producer calls)) [Next (VNum 4); Next (VNum 3); Complete].
Proof.
  split.
  - intros S n e c s. reflexivity.
  - apply (skip_forwards_after_first_match (VNum 3)
             (producer [Next (VNum 1); Next (VNum 3); Next (VNum 4); Next (VNum 3); Complete])
             [Next (VNum 1); Next (VNum 3); Next (VNum 4); Next (VNum 3); Complete]).
    intros S n e c s. reflexivity.
Defined.

Lemma errors_app xs ys : errors (xs ++ ys) = errors xs ++ errors ys.
Proof. apply omap_app. Qed.

Lemma errors_nexts vs : errors (Next <$> vs) = [].
Proof. induction vs as [|v vs IH]; [done|]. apply IH. Qed.

Lemma errors_project f calls : errors (project f <$> calls) = errors calls.
Proof. induction calls as [|[v|err|] calls IH]; cbn; [done|done|by f_equal|done]. Qed.

Lemma values_project_length f calls :
  length (values (project f <$> calls)) = length (values calls).
Proof. induction calls as [|[v|err|] calls IH]; cbn; [done|by f_equal|done|done]. Qed.

Lemma errors_filter predicate calls :
  errors (List.filter (passes predicate) calls) = errors calls.
Proof.
  induction calls as [|[v|err|] calls IH]; cbn; [done| |by f_equal|done].
  by destruct (truthy (predicate v)).
Qed.

Lemma values_filter_length predicate calls :
  (length (values (List.filter (passes predicate) calls)) <= length (values calls))%nat.
Proof.
  unfold values.
  induction calls as [|[v|err|] calls IH]; cbn in *; [done| |done|done].
  destruct (truthy (predicate v)); cbn; lia.
Qed.

(** C7. Whenever the upstream of [map], [filter], [mapTo] or [startWith]
    calls [error(err)], the operator calls the downstream [errorFn] with
    that same [err], at that point: the errors forwarded before it and after
    it are those of the upstream, unchanged and in order; and after it the
    operator makes no [next] call of its own, that is, no more than the
    upstream itself makes after the error. *)
Theorem error_passes_through_unchanged (operator : pass_through) (source : Observable)
    (before after : list notification) (err : value) :
  emits source (before ++ Error err :: after) ->
  exists out_before out_after,
    emits (apply_to operator source) (out_before ++ Error err :: out_after)
    /\ errors out_before = errors before
    /\ errors out_after = errors after
    /\ (length (values out_after) <= length (values after))%nat.
Proof.
  intros H. destruct operator as [f|f this|p|p this|k|args]; cbn [apply_to].
  - exists (project f <$> before), (project f <$> after). split_and!.
    + replace (_ ++ _) with (project f <$> (before ++ Error err :: after))
        by by rewrite fmap_app.
      by apply (map_emits _ _ _ source).
    + apply errors_project.
    + apply errors_project.
    + by rewrite values_project_length.
  - exists (project f <$> before), (project f <$> after). split_and!.
    + replace (_ ++ _) with (project f <$> (before ++ Error err :: after))
        by by rewrite fmap_app.
      by apply (map_emits _ _ _ source).
    + apply errors_project.
    + apply errors_project.
    + by rewrite values_project_length.
  - exists (List.filter (passes p) before), (List.filter (passes p) after). split_and!.
    + replace (_ ++ _) with (List.filter (passes p) (before ++ Error err :: after))
        by by rewrite List.filter_app.
      by apply (filter_emits _ _ _ source).
    + apply errors_filter.
    + apply errors_filter.
    + apply values_filter_length.
  - exists (List.filter (passes p) before), (List.filter (passes p) after). split_and!.
    + replace (_ ++ _) with (List.filter (passes p) (before ++ Error err :: after))
        by by rewrite List.filter_app.
      by apply (filter_emits _ _ _ source).
    + apply errors_filter.
    + apply errors_filter.
    + apply values_filter_length.
  - exists (project (fun _ => k) <$> before), (project (fun _ => k) <$> after). split_and!.
    + replace (_ ++ _) with (project (fun _ => k) <$> (before ++ Error err :: after))
        by by rewrite fmap_app.
      by apply mapTo_emits.
    + apply errors_project.
    + apply errors_project.
    + by rewrite values_project_length.
  - exists ((Next <$> args) ++ before), after. split_and!.
    + rewrite <- app_assoc. by apply startWith_emits.
    + by rewrite errors_app, errors_nexts.
    + done.
    + done.
Qed.

Lemma error_passes_through_unchanged_witness :
  let calls := [Next (VNum 1); Error (VStr "boom"); Next (VNum 2)] in
  emits (producer calls) calls
  /\ exists out_before out_after,
       emits (apply_to (FilterMethod (fun _ => VBool false)) (producer calls))
         (out_before ++ Error (VStr "boom") :: out_after)
       /\ errors out_before = errors [Next (VNum 1)]
       /\ errors out_after = errors [Next (VNum 2)]
       /\ (length (values out_after) <= length (values [Next (VNum 2)]))%nat.
Proof.
  split.
  - intros S n e c s. reflexivity.
  - apply (error_passes_through_unchanged (FilterMethod (fun _ => VBool false))
             (producer [Next (VNum 1); Error (VStr "boom"); Next (VNum 2)])
             [Next (VNum 1)] [Next (VNum 2)] (VStr "boom")).
    intros S n e c s. reflexivity.
Defined.

(** C8, amended. [source.first(predicate)] forwards a value iff it is the
    first one that the predicate selects (the first on which a function
    predicate is truthy, the very first when [predicate] is [undefined]):
    that one value when the upstream sends one, none otherwise; every other
    [next] is suppressed, and [error] and [complete] still come from the
    upstream, where it makes them.  [of(1,2,3,4,5).first()] emits only 1 and
    [of(1,2,3,4,5).first(x => x === 5)] emits only 5. *)
Theorem first_forwards_first_selected (predicate : fn_or_value) (source : Observable)
    (calls : list notification) :
  emits source calls ->
  let out := forward_where (first_selected predicate) [] calls in
  emits (Rx.first predicate source) out
  /\ values out = option_list (find (selects predicate) (values calls))
  /\ terminals out = terminals calls
  /\ trace (Rx.first (NotFn VUndefined) (Rx.of_ [VNum 1; VNum 2; VNum 3; VNum 4; VNum 5]))
     = Normal tt [Next (VNum 1); Complete]
  /\ trace (Rx.first (Fn (fun x => VBool (strict_eq x (VNum 5))))
              (Rx.of_ [VNum 1; VNum 2; VNum 3; VNum 4; VNum 5]))
     = Normal tt [Next (VNum 5); Complete].
Proof.
  intros H out. split_and!.
  - by apply first_emits.
  - unfold out. by rewrite first_values.
  - apply forward_where_terminals.
  - apply emits_trace.
    apply (first_emits (NotFn VUndefined) _ _
             (of_emits [VNum 1; VNum 2; VNum 3; VNum 4; VNum 5])).
  - apply emits_trace.
    apply (first_emits (Fn (fun x => VBool (strict_eq x (VNum 5)))) _ _
             (of_emits [VNum 1; VNum 2; VNum 3; VNum 4; VNum 5])).
Qed.

Lemma first_forwards_first_selected_witness :
  let calls := [Next (VNum 1); Next (VNum 2); Complete] in
  let is_two := Fn (fun x => VBool (strict_eq x (VNum 2))) in
  emits (producer calls) calls
  /\ emits (Rx.first is_two (producer calls)) [Next (VNum 2); Complete].
Proof.
  split.
  - intros S n e c s. reflexivity.
  - apply (first_forwards_first_selected (Fn (fun x => VBool (strict_eq x (VNum 2))))
             (producer [Next (VNum 1); Next (VNum 2); Complete])
             [Next (VNum 1); Next (VNum 2); Complete]).
    intros S n e c s. reflexivity.
Defined.

(** C8 as stated fails: on an upstream without values, and on one without
    a value that the predicate accepts, [first] forwards no value at all. *)
Lemma first_can_forward_no_value :
  ~ (exists log v,
       trace (Rx.first (NotFn VUndefined) (Rx.of_ [])) = Normal tt log
       /\ values log = [v])
  /\ ~ (exists log v,
       trace (Rx.first (Fn (fun x => VBool (strict_eq x (VNum 5))))
                (Rx.of_ [VNum 1; VNum 2])) = Normal tt log
       /\ values log = [v]).
Proof.
  split; intros (log & v & Htrace & Hvalues); vm_compute in Htrace;
    injection Htrace as <-; discriminate Hvalues.
Qed.

(** ** Pipelines of creation and filtering operators *)

Lemma forward_where_completes keep vs prev :
  exists vs',
    forward_where keep prev ((Next <$> vs) ++ [Complete]) = (Next <$> vs') ++ [Complete].
Proof.
  revert prev. induction vs as [|v vs IH]; intros prev.
  - by exists [].
  - cbn [fmap list_fmap app forward_where].
    destruct (IH (prev ++ [v])) as (vs' & ->).
    destruct (keep prev v); [by exists (v :: vs')|by exists vs'].
Qed.

Lemma filter_completes predicate vs :
  exists vs',
    List.filter (passes predicate) ((Next <$> vs) ++ [Complete]) = (Next <$> vs') ++ [Complete].
Proof.
  induction vs as [|v vs (vs' & IH)].
  - by exists [].
  - cbn. rewrite IH. destruct (truthy (predicate v)); [by exists (v :: vs')|by exists vs'].
Qed.

Lemma chained_completes sources :
  Forall (fun calls => exists vs, calls = (Next <$> vs) ++ [Complete]) sources ->
  exists vs, chained sources = Next <$> vs.
Proof.
  induction 1 as [|calls sources (vs & ->) _ (vs' & IH)].
  - by exists [].
  - exists (vs ++ vs'). cbn [chained].
    rewrite without_complete_app, has_complete_app, without_complete_nexts, IH.
    cbn. by rewrite orb_true_r, app_nil_r, fmap_app.
Qed.

Lemma concat_calls_completes vs sources :
  Forall (fun calls => exists vs, calls = (Next <$> vs) ++ [Complete]) sources ->
  exists vs', concat_calls ((Next <$> vs) ++ [Complete]) sources = (Next <$> vs') ++ [Complete].
Proof.
  intros (vs' & E)%chained_completes. exists (vs ++ vs'). unfold concat_calls.
  rewrite flat_map_app, E. cbn. rewrite app_nil_r, fmap_app. f_equal. f_equal.
  clear. induction vs as [|v vs IH]; [done|]. cbn. by f_equal.
Qed.

(** Every pipeline emits values and then completes, once. *)
Lemma build_emits : forall p, exists vs, emits (build p) ((Next <$> vs) ++ [Complete]).
Proof.
  fix IH 1. intros p.
  assert (forall observables : list pipeline,
            exists sources,
              Forall2 emits (List.map build observables) sources
              /\ Forall (fun calls => exists vs, calls = (Next <$> vs) ++ [Complete])
                   sources) as IHs.
  { intros observables. induction observables as [|q observables (sources & H1 & H2)].
    - exists []. by split; constructor.
    - destruct (IH q) as (vs & H). exists (((Next <$> vs) ++ [Complete]) :: sources).
      split; constructor; eauto. }
  destruct p as [args|[args|]|f p|f this p|count p|predicate p|the p
                 |f p|f this p|k p|args p|p observables|observables];
    cbn [build]; try destruct (IH p) as (vs & H).
  - exists args. apply of_emits.
  - exists args. apply of_emits.
  - exists []. apply (of_emits []).
  - destruct (filter_completes f vs) as (vs' & E). exists vs'. rewrite <- E.
    by apply (filter_emits _ _ _ (build p)).
  - destruct (filter_completes f vs) as (vs' & E). exists vs'. rewrite <- E.
    by apply (filter_emits _ _ _ (build p)).
  - destruct (forward_where_completes (within_count count) vs []) as (vs' & E).
    exists vs'. rewrite <- E. by apply take_emits.
  - destruct (forward_where_completes (first_selected predicate) vs []) as (vs' & E).
    exists vs'. rewrite <- E. by apply first_emits.
  - destruct (forward_where_completes (after_match the) vs []) as (vs' & E).
    exists vs'. rewrite <- E. by apply skip_emits.
  - exists (f <$> vs).
    replace ((Next <$> (f <$> vs)) ++ [Complete])
      with (project f <$> ((Next <$> vs) ++ [Complete]))
      by (by rewrite fmap_app, <- !list_fmap_compose).
    by apply (map_emits _ _ _ (build p)).
  - exists (f <$> vs).
    replace ((Next <$> (f <$> vs)) ++ [Complete])
      with (project f <$> ((Next <$> vs) ++ [Complete]))
      by (by rewrite fmap_app, <- !list_fmap_compose).
    by apply (map_emits _ _ _ (build p)).
  - exists ((fun _ => k) <$> vs).
    replace ((Next <$> ((fun _ => k) <$> vs)) ++ [Complete])
      with (project (fun _ => k) <$> ((Next <$> vs) ++ [Complete]))
      by (by rewrite fmap_app, <- !list_fmap_compose).
    by apply mapTo_emits.
  - exists (args ++ vs). rewrite fmap_app, <- app_assoc. by apply startWith_emits.
  - destruct (IHs observables) as (sources & H1 & H2).
    destruct (concat_calls_completes vs sources H2) as (vs' & E).
    exists vs'. rewrite <- E. by apply concat_emits.
  - destruct (IHs observables) as (sources & H1 & H2).
    destruct (chained_completes sources H2) as (vs' & E).
    exists vs'. rewrite <- E. by apply concat_static_emits.
Qed.

(** ** What a subscription leaves in the store *)

Section Framing.
Context {U : Type}.

Lemma extend_nil {A} (c : completion (store U) A) : extend [] c = c.
Proof. destruct c as [a [cs u]|exn [cs u]]; cbn; by rewrite app_nil_r. Qed.

Lemma extend_extend {A} xs ys (c : completion (store U) A) :
  extend ys (extend xs c) = extend (xs ++ ys) c.
Proof. destruct c as [a [cs u]|exn [cs u]]; cbn; by rewrite <- app_assoc. Qed.

Lemma seen_extend {A} post (c : completion (store U) A) : seen (extend post c) = seen c.
Proof. by destruct c. Qed.

Lemma cells_extend {A} post (c : completion (store U) A) :
  cells (state_of (extend post c)) = cells (state_of c) ++ post.
Proof. by destruct c. Qed.

Lemma framed_ret {A} k (a : A) : framed k (ret a : M (store U) A).
Proof. intros pre post u H. by split. Qed.

Lemma framed_user_code {A} k (m : M U A) : framed k (user_code m).
Proof. intros pre post u H. unfold user_code. cbn. destruct (m u); by split. Qed.

Lemma framed_bind {A B} k (m : M (store U) A) (f : A -> M (store U) B) :
  framed k m -> (forall a, framed k (f a)) -> framed k (bind m f).
Proof.
  intros Hm Hf pre post u H. destruct (Hm pre post u H) as [E L]. unfold bind. rewrite E.
  destruct (m (mkStore pre u)) as [a [cs u']|exn [cs u']]; cbn in *.
  - by apply Hf.
  - by split.
Qed.

Lemma framed_read k x : (x < k)%nat -> framed k (read (U := U) x).
Proof.
  intros Hx pre post u H. unfold read. cbn. split; [|done].
  by rewrite lookup_app_l by lia.
Qed.

Lemma framed_assign k x v : (x < k)%nat -> framed k (assign (U := U) x v).
Proof.
  intros Hx pre post u H. unfold assign. cbn. split.
  - by rewrite insert_app_l by lia.
  - by rewrite length_insert.
Qed.

(** A computation that uses [k] cells uses [k + 1] cells. *)
Lemma framed_weaken {A} k (m : M (store U) A) : framed k m -> framed (S k) m.
Proof.
  intros Hm pre' post u H.
  induction pre' as [|x pre _] using rev_ind; [done|].
  rewrite length_app in H. cbn in H.
  assert (length pre = k) as Hk by lia.
  destruct (Hm pre [x] u Hk) as [E1 L]. destruct (Hm pre ([x] ++ post) u Hk) as [E2 _].
  rewrite <- app_assoc, E2, E1, extend_extend. split; [done|].
  rewrite cells_extend, length_app, L. cbn. lia.
Qed.

Lemma framed_replay k (n e : value -> M (store U) unit) c calls :
  (forall v, framed k (n v)) -> (forall err, framed k (e err)) -> framed k c ->
  framed k (replay n e c calls).
Proof.
  intros Hn He Hc. induction calls as [|call calls IH].
  - apply framed_ret.
  - change (framed k (notify n e c call ;; replay n e c calls)).
    apply framed_bind; [destruct call; cbn [notify]; auto|]. intros _. exact IH.
Qed.

(** The callbacks of the user use no cell at all. *)
Lemma user_code_bind {A B} (m : M U A) (f : A -> M U B) w :
  user_code (bind m f) w = bind (user_code m) (fun a => user_code (f a)) w.
Proof. unfold user_code, bind. by destruct (m (outside w)). Qed.

Lemma replay_user_code (n e : value -> M U unit) (c : M U unit) calls w :
  replay (fun v => user_code (n v)) (fun err => user_code (e err)) (user_code c) calls w
  = user_code (replay n e c calls) w.
Proof.
  revert w. induction calls as [|call calls IH]; intros w.
  - by destruct w.
  - change (replay n e c (call :: calls)) with (notify n e c call ;; replay n e c calls).
    rewrite replay_cons, user_code_bind. apply bind_ext_l.
    + intros s. by destruct call.
    + intros _ s. apply IH.
Qed.

Lemma seen_user_code {A} (m : M U A) w : seen (user_code m w) = m (outside w).
Proof. unfold user_code. by destruct (m (outside w)). Qed.

Lemma cells_user_code {A} (m : M U A) w : cells (state_of (user_code m w)) = cells w.
Proof. unfold user_code. by destruct (m (outside w)). Qed.

(** One call forwarded by a wrapper that keeps its variable in the cell
    after the first [k]: once the call is done, the rest goes on with the
    cell as the call left it. *)
Lemma forward_one k (m rest rest' : M (store U) unit) cell pre u :
  framed k m -> length pre = k ->
  (forall pre' u', length pre' = k ->
     exists cell', rest (mkStore (pre' ++ [cell]) u') = extend [cell'] (rest' (mkStore pre' u'))) ->
  exists cell',
    match extend [cell] (m (mkStore pre u)) with
    | Normal _ w' => rest w'
    | Throw exn w' => Throw exn w'
    end = extend [cell'] ((m ;; rest') (mkStore pre u)).
Proof.
  intros Hm Hpre Hrest. destruct (Hm pre [] u Hpre) as [_ L]. unfold bind.
  destruct (m (mkStore pre u)) as [[] [cs u']|exn [cs u']]; cbn in *.
  - by apply Hrest.
  - by exists cell.
Qed.

(** A filtering operator that keeps a variable: if the cell of the variable
    always holds [inv] of the values sent so far, and the wrapper forwards a
    value exactly when [keep] holds, then the observer receives the calls
    that [forward_where keep] selects. *)
Lemma cell_forward (keep : list value -> value -> bool) (inv : value -> list value -> Prop) k
    (cb n e : value -> M (store U) unit) (c : M (store U) unit) :
  (forall v, framed k (n v)) -> (forall err, framed k (e err)) -> framed k c ->
  (forall cell prev v, inv cell prev ->
     exists cell', inv cell' (prev ++ [v]) /\
       forall pre u, length pre = k ->
         cb v (mkStore (pre ++ [cell]) u)
         = extend [cell'] ((if keep prev v : bool then n v else ret tt) (mkStore pre u))) ->
  forall calls cell prev pre u, inv cell prev -> length pre = k ->
    exists cell',
      replay cb e c calls (mkStore (pre ++ [cell]) u)
      = extend [cell'] (replay n e c (forward_where keep prev calls) (mkStore pre u)).
Proof.
  intros Hn He Hc Hstep.
  induction calls as [|call calls IH]; intros cell prev pre u Hinv Hpre.
  - by exists cell.
  - destruct call as [v|err|].
    + destruct (Hstep cell prev v Hinv) as (cell1 & Hinv1 & Hcb).
      set (X := if keep prev v then n v else ret tt) in *.
      assert (framed k X) as HX
        by (unfold X; destruct (keep prev v); [apply Hn|apply framed_ret]).
      destruct (forward_one k X (replay cb e c calls)
                  (replay n e c (forward_where keep (prev ++ [v]) calls)) cell1 pre u HX Hpre
                  (fun pre' u' H' => IH cell1 (prev ++ [v]) pre' u' Hinv1 H'))
        as (cell2 & E).
      exists cell2. cbn [forward_where]. rewrite replay_app.
      transitivity (extend [cell2]
        ((X ;; replay n e c (forward_where keep (prev ++ [v]) calls)) (mkStore pre u))).
      * rewrite <- E, replay_cons. unfold bind at 1. cbn [notify].
        by rewrite (Hcb pre u Hpre).
      * f_equal. apply bind_ext_l; [|done]. intros s. unfold X.
        destruct (keep prev v); [by rewrite replay_one|done].
    + destruct (forward_one k (e err) (replay cb e c calls)
                  (replay n e c (forward_where keep prev calls)) cell pre u (He err) Hpre
                  (fun pre' u' H' => IH cell prev pre' u' Hinv H'))
        as (cell2 & E).
      exists cell2. cbn [forward_where]. rewrite replay_cons, (replay_cons n). cbn [notify].
      rewrite <- E. unfold bind at 1.
      by destruct (He err pre [cell] u Hpre) as [-> _].
    + destruct (forward_one k c (replay cb e c calls)
                  (replay n e c (forward_where keep prev calls)) cell pre u Hc Hpre
                  (fun pre' u' H' => IH cell prev pre' u' Hinv H'))
        as (cell2 & E).
      exists cell2. cbn [forward_where]. rewrite replay_cons, (replay_cons n). cbn [notify].
      rewrite <- E. unfold bind at 1.
      by destruct (Hc pre [cell] u Hpre) as [-> _].
Qed.

(** *** The operators, one by one *)

Lemma of_emits_in args : emits_in (RxStore.of_ (U := U) args) ((Next <$> args) ++ [Complete]).
Proof.
  intros k n e c Hn He Hc pre u Hpre. exists []. rewrite extend_nil.
  cbn [subscribe_in RxStore.of_]. rewrite replay_app. apply bind_ext_l.
  - intros s. by rewrite replay_nexts.
  - intros [] s. by rewrite replay_one.
Qed.

Lemma fromArray_emits_in args :
  emits_in (RxStore.fromArray (U := U) args)
    ((Next <$> match args with Some a => a | None => [] end) ++ [Complete]).
Proof. apply of_emits_in. Qed.

Lemma replay_filter_in predicate (n e : value -> M (store U) unit) c calls w :
  replay (fun val => passed <- user_code (pure_function predicate val) ;;
                     if truthy passed then n val else ret tt) e c calls w
  = replay n e c (List.filter (passes predicate) calls) w.
Proof.
  revert w. induction calls as [|call calls IH]; intros w; [done|].
  rewrite replay_cons. destruct call as [v|err|]; cbn [List.filter passes notify].
  - unfold bind at 1 2. unfold user_code, pure_function, ret at 1. destruct w as [cs u].
    cbn [cells outside]. destruct (truthy (predicate v)).
    + rewrite replay_cons. cbn [notify]. unfold bind. destruct (n v _); [apply IH|done].
    + apply IH.
  - rewrite replay_cons. by apply bind_ext.
  - rewrite replay_cons. by apply bind_ext.
Qed.

Lemma framed_filter_next k predicate (n : value -> M (store U) unit) :
  (forall v, framed k (n v)) ->
  forall val, framed k (passed <- user_code (pure_function predicate val) ;;
                        if truthy passed then n val else ret tt).
Proof.
  intros Hn val. apply framed_bind; [apply framed_user_code|].
  intros passed. destruct (truthy passed); [apply Hn|apply framed_ret].
Qed.

Lemma filter_emits_in predicate o calls :
  emits_in o calls ->
  emits_in (RxStore.filter (U := U) (pure_function predicate) None (InstanceIn o))
    (List.filter (passes predicate) calls).
Proof.
  intros Ho k n e c Hn He Hc pre u Hpre. cbn [subscribe_in RxStore.filter].
  destruct (Ho k _ e c (framed_filter_next k predicate n Hn) He Hc pre u Hpre) as (g & E).
  exists g. by rewrite E, replay_filter_in.
Qed.

Lemma filter_static_emits_in predicate o calls :
  emits_in o calls ->
  emits_in (RxStore.filter (U := U) (pure_function predicate) (Some o) StaticIn)
    (List.filter (passes predicate) calls).
Proof.
  intros Ho k n e c Hn He Hc pre u Hpre. cbn [subscribe_in RxStore.filter].
  destruct (Ho k _ e c (framed_filter_next k predicate n Hn) He Hc pre u Hpre) as (g & E).
  exists g. by rewrite E, replay_filter_in.
Qed.

Lemma take_emits_in count o calls :
  emits_in o calls ->
  emits_in (RxStore.take (U := U) count o) (forward_where (within_count count) [] calls).
Proof.
  intros Ho k n e c Hn He Hc pre u Hpre. subst k.
  cbn [subscribe_in RxStore.take]. unfold bind at 1, new_variable. cbn [cells outside].
  set (cb := fun val : value =>
               v <- pre_increment (length pre) ;;
               if at_most v count then n val else ret tt).
  assert (forall v, framed (S (length pre)) (cb v)) as Hcb.
  { intros val. apply framed_bind.
    - apply framed_bind; [apply framed_read; lia|]. intros v.
      apply framed_bind; [apply framed_assign; lia|]. intros _. apply framed_ret.
    - intros v. destruct (at_most v count); [apply framed_weaken, Hn|apply framed_ret]. }
  destruct (Ho (S (length pre)) cb e c Hcb (fun err => framed_weaken _ _ (He err))
              (framed_weaken _ _ Hc) (pre ++ [VNum 0]) u) as (g & E).
  { rewrite length_app. cbn. lia. }
  destruct (cell_forward (within_count count)
              (fun cell prev => cell = VNum (Z.of_nat (length prev)))
              (length pre) cb n e c Hn He Hc) with (calls := calls) (cell := VNum 0)
              (prev := @nil value) (pre := pre) (u := u) as (cell' & E'); [|done|done|].
  - intros cell prev v ->. exists (VNum (Z.of_nat (length prev) + 1)). split.
    { f_equal. rewrite length_app. cbn. lia. }
    intros pre' u' Hpre'. unfold cb, pre_increment, bind, read, assign, ret.
    cbn [cells outside]. rewrite <- Hpre'.
    rewrite list_lookup_middle by done. cbn [default from_option id successor at_most].
    rewrite insert_app_r_alt by lia. rewrite Nat.sub_diag. cbn [insert list_insert].
    unfold within_count. destruct (Z.of_nat (length prev) + 1 <=? count); [|done].
    by destruct (Hn v pre' [VNum (Z.of_nat (length prev) + 1)] u' Hpre').
  - exists ([cell'] ++ g). by rewrite E, E', extend_extend.
Qed.

Lemma first_emits_in predicate o calls :
  emits_in o calls ->
  emits_in (RxStore.first (U := U) (pure_argument predicate) o)
    (forward_where (first_selected predicate) [] calls).
Proof.
  intros Ho k n e c Hn He Hc pre u Hpre. subst k.
  cbn [subscribe_in RxStore.first]. unfold bind at 1, new_variable. cbn [cells outside].
  match goal with
  | |- context [subscribe_in o ?f e c _] => set (cb := f)
  end.
  assert (forall v, framed (S (length pre)) (cb v)) as Hcb.
  { intros val. apply framed_bind; [apply framed_read; lia|]. intros b.
    destruct (truthy b); [|apply framed_ret].
    destruct predicate as [f|p]; cbn [pure_argument].
    - apply framed_bind; [apply framed_user_code|]. intros passed.
      destruct (truthy passed); [|apply framed_ret].
      apply framed_bind; [apply framed_assign; lia|]. intros _. apply framed_weaken, Hn.
    - destruct (strict_eq p VUndefined); [|apply framed_ret].
      apply framed_bind; [apply framed_assign; lia|]. intros _. apply framed_weaken, Hn. }
  destruct (Ho (S (length pre)) cb e c Hcb (fun err => framed_weaken _ _ (He err))
              (framed_weaken _ _ Hc) (pre ++ [VBool true]) u) as (g & E).
  { rewrite length_app. cbn. lia. }
  destruct (cell_forward (first_selected predicate)
              (fun cell prev => cell = VBool (negb (existsb (selects predicate) prev)))
              (length pre) cb n e c Hn He Hc) with (calls := calls) (cell := VBool true)
              (prev := @nil value) (pre := pre) (u := u) as (cell' & E'); [|done|done|].
  - intros cell prev v ->.
    exists (VBool (negb (existsb (selects predicate) (prev ++ [v])))). split; [done|].
    intros pre' u' Hpre'. unfold cb, bind at 1, read.
    cbn [cells outside]. rewrite <- Hpre'.
    rewrite list_lookup_middle by done. cbn [default from_option id truthy].
    rewrite existsb_app. cbn [existsb]. rewrite orb_false_r.
    unfold first_selected. destruct (existsb (selects predicate) prev); cbn [negb orb].
    { by rewrite andb_false_r. }
    rewrite andb_true_r.
    assert ((assign (length pre') (VBool false) ;; n v) (mkStore (pre' ++ [VBool true]) u')
            = extend [VBool false] (n v (mkStore pre' u'))) as Hfound.
    { unfold bind, assign. cbn [cells outside].
      rewrite insert_app_r_alt by lia. rewrite Nat.sub_diag. cbn [insert list_insert].
      by destruct (Hn v pre' [VBool false] u' Hpre'). }
    destruct predicate as [f|p]; cbn [pure_argument selects].
    + unfold bind at 1, user_code, pure_function, ret at 1. cbn [cells outside].
      destruct (truthy (f v)); [exact Hfound|done].
    + destruct (strict_eq p VUndefined); [exact Hfound|done].
  - exists ([cell'] ++ g). by rewrite E, E', extend_extend.
Qed.

Lemma skip_emits_in the o calls :
  emits_in o calls ->
  emits_in (RxStore.skip (U := U) the o) (forward_where (after_match the) [] calls).
Proof.
  intros Ho k n e c Hn He Hc pre u Hpre. subst k.
  cbn [subscribe_in RxStore.skip]. unfold bind at 1, new_variable. cbn [cells outside].
  match goal with
  | |- context [subscribe_in o ?f e c _] => set (cb := f)
  end.
  assert (forall v, framed (S (length pre)) (cb v)) as Hcb.
  { intros val. apply framed_bind; [apply framed_read; lia|]. intros b.
    destruct (truthy b); [apply framed_weaken, Hn|].
    destruct (strict_eq val the); [apply framed_assign; lia|apply framed_ret]. }
  destruct (Ho (S (length pre)) cb e c Hcb (fun err => framed_weaken _ _ (He err))
              (framed_weaken _ _ Hc) (pre ++ [VBool false]) u) as (g & E).
  { rewrite length_app. cbn. lia. }
  destruct (cell_forward (after_match the)
              (fun cell prev => cell = VBool (existsb (fun u => strict_eq u the) prev))
              (length pre) cb n e c Hn He Hc) with (calls := calls) (cell := VBool false)
              (prev := @nil value) (pre := pre) (u := u) as (cell' & E'); [|done|done|].
  - intros cell prev v ->.
    exists (VBool (existsb (fun u => strict_eq u the) (prev ++ [v]))). split; [done|].
    intros pre' u' Hpre'. unfold cb, bind at 1, read.
    cbn [cells outside]. rewrite <- Hpre'.
    rewrite list_lookup_middle by done. cbn [default from_option id truthy].
    rewrite existsb_app. cbn [existsb]. rewrite orb_false_r.
    unfold after_match. destruct (existsb (fun u => strict_eq u the) prev); cbn [orb].
    { by destruct (Hn v pre' [VBool true] u' Hpre'). }
    destruct (strict_eq v the); [|done].
    unfold assign, ret. cbn [cells outside extend].
    rewrite insert_app_r_alt by lia. by rewrite Nat.sub_diag.
  - exists ([cell'] ++ g). by rewrite E, E', extend_extend.
Qed.

(** Every pipeline makes the calls that its operators select, one after the
    other. *)
Lemma build_in_emits (q : filtering_pipeline) :
  emits_in (build_in (U := U) q) (pipeline_calls q).
Proof.
  induction q as [args|args|p q IH|p q IH|count q IH|predicate q IH|the q IH];
    cbn [build_in pipeline_calls].
  - apply of_emits_in.
  - destruct args; apply of_emits_in.
  - by apply filter_emits_in.
  - by apply filter_static_emits_in.
  - by apply take_emits_in.
  - by apply first_emits_in.
  - by apply skip_emits_in.
Qed.

End Framing.

Lemma nexts_complete_values vs : values ((Next <$> vs) ++ [Complete]) = vs.
Proof. rewrite values_app, values_nexts. apply app_nil_r. Qed.

(** These calls are the values to deliver, then [complete]. *)
Lemma pipeline_calls_delivered (q : filtering_pipeline) :
  pipeline_calls q = (Next <$> delivered_values q) ++ [Complete].
Proof.
  induction q as [args|[args|]|p q IH|p q IH|count q IH|predicate q IH|the q IH];
    cbn [delivered_values pipeline_calls]; try reflexivity; rewrite IH.
  - destruct (filter_completes p (delivered_values q)) as (vs' & E). rewrite E.
    by rewrite <- (nexts_complete_values vs'), <- E, values_filter, nexts_complete_values.
  - destruct (filter_completes p (delivered_values q)) as (vs' & E). rewrite E.
    by rewrite <- (nexts_complete_values vs'), <- E, values_filter, nexts_complete_values.
  - destruct (forward_where_completes (within_count count) (delivered_values q) [])
      as (vs' & E).
    rewrite E.
    rewrite <- (nexts_complete_values vs'), <- E, take_values, nexts_complete_values.
    cbn [length]. by rewrite Nat.sub_0_r.
  - destruct (forward_where_completes (first_selected predicate) (delivered_values q) [])
      as (vs' & E).
    rewrite E.
    by rewrite <- (nexts_complete_values vs'), <- E, first_values, nexts_complete_values.
  - destruct (forward_where_completes (after_match the) (delivered_values q) [])
      as (vs' & E).
    rewrite E.
    by rewrite <- (nexts_complete_values vs'), <- E, skip_values, nexts_complete_values.
Qed.

(** One subscription of an observer of the user, in any store. *)
Lemma subscription_in_any_store {U} (q : filtering_pipeline) (n e : value -> M U unit)
    (c : M U unit) (w : store U) :
  exists left_behind,
    subscribe_in (build_in q) (fun v => user_code (n v)) (fun err => user_code (e err))
      (user_code c) w
    = extend left_behind
        (user_code (replay n e c ((Next <$> delivered_values q) ++ [Complete])) w).
Proof.
  destruct w as [pre u].
  destruct (build_in_emits (U := U) q (length pre) (fun v => user_code (n v))
              (fun err => user_code (e err)) (user_code c)
              (fun v => framed_user_code _ _) (fun err => framed_user_code _ _)
              (framed_user_code _ _) pre u eq_refl) as (g & E).
  exists g. by rewrite E, replay_user_code, pipeline_calls_delivered.
Qed.

(** C9, amended. For every observable built from the creation operators
    [of] and [fromArray] and the filtering operators [filter], [take],
    [first] and [skip], with predicates that are pure functions of the value
    (no side effect, no exception): whatever the observer does, whatever the
    state of the user and whatever variables earlier subscriptions have left
    in the store, a subscription makes on the observer exactly the calls
    [next] on the values that the operators select, in order, then
    [complete]; two subscriptions in a row, by the same observer or by two
    observers, make these calls one time each, the second as if the first
    had not taken place; and the variables that were in the store before
    keep their place. *)
Theorem resubscription_starts_afresh {U} (q : filtering_pipeline)
    (nextFn errorFn : value -> M U unit) (completeFn : M U unit)
    (nextFn' errorFn' : value -> M U unit) (completeFn' : M U unit) (w : store U) :
  let calls := (Next <$> delivered_values q) ++ [Complete] in
  let first_subscription :=
    subscribe_in (build_in q) (fun v => user_code (nextFn v))
      (fun err => user_code (errorFn err)) (user_code completeFn) in
  let second_subscription :=
    subscribe_in (build_in q) (fun v => user_code (nextFn' v))
      (fun err => user_code (errorFn' err)) (user_code completeFn') in
  seen (first_subscription w) = replay nextFn errorFn completeFn calls (outside w)
  /\ seen ((first_subscription ;; second_subscription) w)
     = (replay nextFn errorFn completeFn calls ;;
        replay nextFn' errorFn' completeFn' calls) (outside w)
  /\ exists left_behind,
       cells (state_of ((first_subscription ;; second_subscription) w))
       = cells w ++ left_behind.
Proof.
  intros calls first_subscription second_subscription.
  destruct (subscription_in_any_store q nextFn errorFn completeFn w) as (g1 & E1).
  fold calls in E1. fold first_subscription in E1.
  assert (forall u1, exists g2,
            second_subscription (mkStore (cells w ++ g1) u1)
            = extend g2 (user_code (replay nextFn' errorFn' completeFn' calls)
                           (mkStore (cells w ++ g1) u1))) as E2
    by (intros u1; apply subscription_in_any_store).
  split_and!.
  - by rewrite E1, seen_extend, seen_user_code.
  - unfold bind. rewrite E1. unfold user_code at 1.
    destruct (replay nextFn errorFn completeFn calls (outside w)) as [[] u1|exn u1];
      cbn [extend seen cells outside]; [|done].
    destruct (E2 u1) as (g2 & ->). by rewrite seen_extend, seen_user_code.
  - unfold bind. rewrite E1. unfold user_code at 1.
    destruct (replay nextFn errorFn completeFn calls (outside w)) as [[] u1|exn u1];
      cbn [extend state_of cells outside]; [|by exists g1].
    destruct (E2 u1) as (g2 & ->). exists (g1 ++ g2).
    by rewrite cells_extend, cells_user_code, app_assoc.
Qed.

(** C9 as it is worded: a predicate with a state of its own makes the second
    subscription differ from the first.  With [let k = 0] in the code of the
    user, [of(1, 2, 3).filter(x => ++k <= 2)] delivers 1, 2 and [complete]
    to a first subscription and [complete] alone to a second one. *)
Lemma stateful_predicate_replays_differently :
  let o := RxStore.filter counts_to_two None
             (InstanceIn (RxStore.of_ [VNum 1; VNum 2; VNum 3])) in
  let start := mkStore [] (0, []) in
  log_of (subscribe_recording o start) = [Next (VNum 1); Next (VNum 2); Complete]
  /\ log_of ((subscribe_recording o ;; subscribe_recording o) start)
     = [Next (VNum 1); Next (VNum 2); Complete; Complete]
  /\ log_of ((subscribe_recording o ;; subscribe_recording o) start)
     <> log_of (subscribe_recording o start) ++ log_of (subscribe_recording o start).
Proof. cbn zeta. split_and!; [reflexivity|reflexivity|vm_compute; discriminate]. Qed.

(** The pipeline [of(1, 2, 3, 4, 5).skip(1).take(3).first()] subscribed
    twice by the recording observer, in a store where other subscriptions
    have left a counter and a flag. *)
Example resubscribed_pipeline :
  let q := QFirst (NotFn VUndefined) (QTake 3 (QSkip (VNum 1) (QOf one_to_five))) in
  let start := mkStore [VNum 7; VBool false] (0, []) in
  delivered_values q = [VNum 2]
  /\ log_of ((subscribe_recording (build_in q) ;; subscribe_recording (build_in q)) start)
     = [Next (VNum 2); Complete; Next (VNum 2); Complete].
Proof. cbn zeta. split; reflexivity. Qed.

(** ** The two calling conventions of [concat] *)

Lemma bind_ret_r {S A} (m : M S A) s : (x <- m ;; ret x) s = m s.
Proof. unfold bind, ret. by destruct (m s). Qed.

(** With [isDone] clear, the loop of [callback] subscribes to nothing. *)
Lemma callback_passes_over {S} (n : nextFn_t S) (e : errorFn_t S) observables s :
  let_local false
    (forEach observables (fun obs =>
       isDone <- get_local ;;
       if isDone : bool then
         set_local false ;;
         subscribe obs (fun v => outer (n v)) (fun err => outer (e err)) (set_local true)
       else ret tt)) s
  = ret tt s.
Proof. induction observables as [|obs observables IH]; [reflexivity|apply IH]. Qed.

Lemma replay_without_complete {S} (n : nextFn_t S) e c c' calls s :
  has_complete calls = false ->
  replay n e c calls s = replay n e c' calls s.
Proof.
  revert s. induction calls as [|call calls IH]; intros s H; [reflexivity|].
  rewrite !replay_cons. destruct call; try discriminate H;
    by apply bind_ext; intros [] s'; apply IH.
Qed.

(** C10, amended. When the first observable [o1] respects the producer
    protocol (values, then at most one [error] or [complete], and nothing
    after it), the static call [Observable.concat(o1, ..., on)] (where
    [this] has no [subscribe], so that [callback] runs over all the
    arguments) makes the same calls of [next], [error] and [complete] as the
    method call [o1.concat(o2, ..., on)], whatever the observer and whatever
    the other observables: also when [o1] fails or does not terminate, in
    which case neither form subscribes to them. *)
Theorem static_concat_agrees_with_method (o1 : Observable) (calls : list notification)
    (others : list Observable) :
  emits o1 calls ->
  protocol calls ->
  forall (S : Type) (nextFn : nextFn_t S) (errorFn : errorFn_t S)
         (completeFn : completeFn_t S) (s : S),
    subscribe (Rx.concat (o1 :: others) Static) nextFn errorFn completeFn s
    = subscribe (Rx.concat others (Instance o1)) nextFn errorFn completeFn s.
Proof.
  intros Ho1 Hprotocol S n e c s. cbn [subscribe Rx.concat].
  apply bind_ext_l; [clear s; intros s|done].
  rewrite Ho1. unfold Rx.concat_callback at 1. cbn [forEach].
  match goal with
  | |- let_local true (_ ;; ?K) s = _ =>
      transitivity
        (let_local false
           (subscribe o1 (fun v => outer (n v)) (fun err => outer (e err))
              (set_local true) ;; K) s);
      [reflexivity|]
  end.
  etransitivity.
  { apply (let_local_ext false); intros s'.
    apply bind_ext_l; [apply Ho1|reflexivity]. }
  rewrite (callback_one n e (Rx.concat_callback others n e)). cbn [orb].
  destruct Hprotocol as (vs & [->|[(err & ->)| ->]]).
  - (* the first observable does not terminate *)
    rewrite has_complete_nexts, without_complete_nexts.
    etransitivity; [apply bind_ext; intros [] s'; apply callback_passes_over|].
    apply bind_ret_r.
  - (* the first observable fails *)
    rewrite has_complete_app, without_complete_app, has_complete_nexts,
      without_complete_nexts.
    etransitivity; [apply bind_ext; intros [] s'; apply callback_passes_over|].
    apply bind_ret_r.
  - (* the first observable completes *)
    rewrite has_complete_app, without_complete_app, has_complete_nexts,
      without_complete_nexts.
    cbn [has_complete without_complete existsb List.filter orb].
    rewrite app_nil_r, replay_app.
    apply bind_ext. intros [] s'. by rewrite replay_one.
Qed.

Lemma static_concat_agrees_with_method_witness :
  let completing := producer [Next (VNum 10); Complete] in
  let failing := producer [Next (VNum 1); Error (VStr "e")] in
  let o2 := producer [Next (VNum 20); Complete] in
  trace (Rx.concat [completing; o2] Static) = trace (Rx.concat [o2] (Instance completing))
  /\ trace (Rx.concat [failing; o2] Static) = trace (Rx.concat [o2] (Instance failing)).
Proof.
  split.
  - apply (static_concat_agrees_with_method
             (producer [Next (VNum 10); Complete]) [Next (VNum 10); Complete]
             [producer [Next (VNum 20); Complete]]).
    + intros S n e c s. reflexivity.
    + exists [VNum 10]. right. right. reflexivity.
  - apply (static_concat_agrees_with_method
             (producer [Next (VNum 1); Error (VStr "e")]) [Next (VNum 1); Error (VStr "e")]
             [producer [Next (VNum 20); Complete]]).
    + intros S n e c s. reflexivity.
    + exists [VNum 1]. right. left. exists (VStr "e"). reflexivity.
Defined.

(** C10 as stated fails: a synchronous producer that calls [complete] twice
    tells the two forms apart, since the method call runs [callback] at
    each [complete] of the receiver and the static call runs it once. *)
Lemma concat_differs_on_double_complete :
  let twice := producer [Complete; Complete] in
  trace (Rx.concat [twice; Rx.of_ [VNum 1]] Static)
  = Normal tt [Next (VNum 1); Complete]
  /\ trace (Rx.concat [Rx.of_ [VNum 1]] (Instance twice))
     = Normal tt [Next (VNum 1); Next (VNum 1); Complete]
  /\ trace (Rx.concat [twice; Rx.of_ [VNum 1]] Static)
     <> trace (Rx.concat [Rx.of_ [VNum 1]] (Instance twice)).
Proof. split_and!; [reflexivity|reflexivity|]. vm_compute. discriminate. Qed.

(** ** [fromPromise] on the run-time *)

Section FromPromise.
Context {U : Type}.
Implicit Types (w : runtime U) (n e : value -> M U unit) (c : M U unit).
Implicit Types (u : U) (h : list (promise_state U)) (queue : list (job U)).

Lemma drain_empty fuel w : microtasks w = [] -> drain fuel w = Some w.
Proof. intros H. destruct fuel; cbn; by rewrite H. Qed.

Lemma settle_pending p outcome reactions u h queue :
  h !! p = Some (Pending reactions) ->
  settle p outcome (mkRuntime u h queue)
  = Normal tt (mkRuntime u (<[p := Settled outcome]> h)
                 (queue ++ ((fun r => (r, outcome)) <$> reactions))).
Proof. intros H. unfold settle, bind, load_promise. cbn. by rewrite H. Qed.

Lemma settle_settled p outcome outcome' u h queue :
  h !! p = Some (Settled outcome) ->
  settle p outcome' (mkRuntime u h queue) = Normal tt (mkRuntime u h queue).
Proof. intros H. unfold settle, bind, load_promise. cbn. by rewrite H. Qed.

Lemma drain_step fuel u h j rest :
  drain (S fuel) (mkRuntime u h (j :: rest))
  = drain fuel (state_of (run_job j (mkRuntime u h rest))).
Proof. reflexivity. Qed.

(** A reaction to a fulfilment runs the handler on the observer's state
    and settles the derived promise. *)
Lemma run_job_fulfilled (r : reaction U) v reactions u h queue :
  h !! derived r = Some (Pending reactions) ->
  run_job (r, Fulfilled v) (mkRuntime u h queue)
  = match on_fulfilled r v u with
    | Normal _ u' =>
        Normal tt (mkRuntime u' (<[derived r := Settled (Fulfilled VUndefined)]> h)
                     (queue ++ ((fun r' => (r', Fulfilled VUndefined)) <$> reactions)))
    | Throw exn u' =>
        Normal tt (mkRuntime u' (<[derived r := Settled (Rejected exn)]> h)
                     (queue ++ ((fun r' => (r', Rejected exn)) <$> reactions)))
    end.
Proof.
  intros H. unfold run_job, bind at 1, in_user. cbn [user promises microtasks].
  destruct (on_fulfilled r v u) as [[] u'|exn u']; by apply settle_pending.
Qed.

(** A reaction to a rejection calls nothing and rejects the derived
    promise. *)
Lemma run_job_rejected (r : reaction U) reason reactions u h queue :
  h !! derived r = Some (Pending reactions) ->
  run_job (r, Rejected reason) (mkRuntime u h queue)
  = Normal tt (mkRuntime u (<[derived r := Settled (Rejected reason)]> h)
                 (queue ++ ((fun r' => (r', Rejected reason)) <$> reactions))).
Proof. intros H. by apply settle_pending. Qed.

(** Once [val => nextFn(val)] is scheduled, two jobs deliver the calls. *)
Lemma chain_runs n e c u h q1 q2 outcome fuel :
  q1 <> q2 ->
  h !! q1 = Some (Pending [reaction2 c q2]) ->
  h !! q2 = Some (Pending []) ->
  (2 <= fuel)%nat ->
  exists w',
    drain fuel (mkRuntime u h [(reaction1 n q1, outcome)]) = Some w'
    /\ microtasks w' = []
    /\ user w' = state_of (replay n e c (promised_calls (Some outcome)) u).
Proof.
  intros Hne H1 H2 Hfuel.
  destruct fuel as [|[|fuel]]; [lia|lia|].
  assert (forall x, <[q1 := x]> h !! q2 = Some (Pending [])) as H2'.
  { intros x. by rewrite list_lookup_insert_ne. }
  rewrite drain_step. destruct outcome as [v|reason].
  - rewrite (run_job_fulfilled (reaction1 n q1) v _ u h [] H1).
    cbn [promised_calls replay forEach notify reaction1 on_fulfilled derived].
    unfold bind at 1.
    destruct (n v u) as [[] u1|exn u1]; cbn [state_of app fmap list_fmap];
      rewrite drain_step.
    + rewrite (run_job_fulfilled (reaction2 c q2) _ _ _ _ [] (H2' _)).
      cbn [reaction2 on_fulfilled derived]. unfold bind, ret.
      destruct (c u1) as [[] u2|exn u2]; cbn [state_of app fmap list_fmap];
        rewrite drain_empty by done; eauto.
    + rewrite (run_job_rejected (reaction2 c q2) _ _ _ _ [] (H2' _)).
      cbn [state_of app fmap list_fmap]. rewrite drain_empty by done; eauto.
  - rewrite (run_job_rejected (reaction1 n q1) _ _ u h [] H1).
    cbn [state_of app fmap list_fmap]. rewrite drain_step.
    rewrite (run_job_rejected (reaction2 c q2) _ _ _ _ [] (H2' _)).
    cbn [state_of app fmap list_fmap]. rewrite drain_empty by done; eauto.
Qed.

Lemma promise_then_settled p (f : value -> M U unit) outcome u h queue :
  h !! p = Some (Settled outcome) ->
  promise_then p f (mkRuntime u h queue)
  = Normal (length h)
      (mkRuntime u (h ++ [Pending []]) (queue ++ [(mkReaction f (length h), outcome)])).
Proof.
  intros H. unfold promise_then, bind, new_promise, load_promise. cbn.
  by rewrite (lookup_app_l_Some _ _ _ _ H).
Qed.

Lemma promise_then_pending p (f : value -> M U unit) reactions u h queue :
  h !! p = Some (Pending reactions) ->
  promise_then p f (mkRuntime u h queue)
  = Normal (length h)
      (mkRuntime u
         (<[p := Pending (reactions ++ [mkReaction f (length h)])]> (h ++ [Pending []]))
         queue).
Proof.
  intros H. unfold promise_then, bind, new_promise, load_promise. cbn.
  by rewrite (lookup_app_l_Some _ _ _ _ H).
Qed.

Lemma subscribe_later_fromPromise n e c p w :
  subscribe_later (Rx.fromPromise (Some (VPromise p))) n e c w
  = (q1 <- promise_then p (fun val => n val) ;;
     _ <- promise_then q1 (fun _ => c) ;;
     ret tt) w.
Proof.
  cbn [subscribe_later Rx.fromPromise then_]. unfold bind, ret.
  destruct (promise_then p _ w) as [q1 w1|]; [|done].
  cbn [then_]. unfold bind, ret. by destruct (promise_then q1 _ w1).
Qed.
End FromPromise.

Ltac heap_size := repeat (rewrite length_insert || rewrite length_app); cbn; lia.

Ltac heap_lookup :=
  repeat first
    [ rewrite list_lookup_insert_eq by heap_size
    | rewrite list_lookup_insert_ne by lia
    | rewrite list_lookup_middle by heap_size
    | rewrite lookup_app_l by heap_size ].

(** C5. For [fromPromise(p)]: [subscribe] itself calls nothing; when [p] is
    or becomes fulfilled with [v], the reaction jobs call [next(v)] and then
    [complete()], and never [errorFn]; when [p] is or becomes rejected, or
    is never settled, no callback is ever called.  The promise [p] has no
    other reaction registered, and the jobs run until the queue is empty. *)
Theorem fromPromise_delivers_on_fulfilment_only {U : Type}
    (nextFn : nextFn_t U) (errorFn : errorFn_t U) (completeFn : completeFn_t U)
    (w : runtime U) (p : nat) (st : promise_state U) (later : option settlement)
    (fuel : nat) :
  promises w !! p = Some st ->
  match st with Pending reactions => reactions = [] | Settled _ => True end ->
  microtasks w = [] ->
  (2 <= fuel)%nat ->
  user (state_of (subscribe_later (Rx.fromPromise (Some (VPromise p)))
                    nextFn errorFn completeFn w)) = user w
  /\ exists w',
       delivered nextFn errorFn completeFn p later fuel w = Some w'
       /\ microtasks w' = []
       /\ user w'
          = state_of (replay nextFn errorFn completeFn
                        (promised_calls (eventual st later)) (user w)).
Proof.
  intros Hp Hst Hqueue Hfuel. destruct w as [u h queue]. cbn in Hp, Hqueue. subst queue.
  pose proof (lookup_lt_Some _ _ _ Hp) as Hlt.
  unfold delivered. rewrite subscribe_later_fromPromise. unfold bind, ret.
  destruct st as [reactions|outcome]; cbn [eventual].
  - (* pending when [subscribe] is called *)
    subst reactions. rewrite (promise_then_pending _ _ _ _ _ _ Hp). cbn [app].
    erewrite promise_then_pending by (heap_lookup; reflexivity).
    cbn [state_of user app]. split; [done|].
    rewrite length_insert, length_app, Nat.add_1_r. cbn [length].
    destruct later as [outcome|]; cbn [promised_calls].
    + erewrite settle_pending by (heap_lookup; reflexivity).
      cbn [state_of app fmap list_fmap].
      apply (chain_runs nextFn errorFn completeFn u _ (length h) (S (length h)));
        [lia| |  |done].
      * heap_lookup. reflexivity.
      * heap_lookup. reflexivity.
    + rewrite drain_empty by done. eauto.
  - (* settled when [subscribe] is called *)
    rewrite (promise_then_settled _ _ _ _ _ _ Hp). cbn [app].
    erewrite promise_then_pending by (heap_lookup; reflexivity).
    cbn [state_of user app]. split; [done|].
    rewrite length_app, Nat.add_1_r. cbn [length].
    assert (h !! p = Some (Settled outcome) ->
            (<[length h := Pending [reaction2 completeFn (S (length h))]]>
               ((h ++ [Pending []]) ++ [Pending []])) !! p = Some (Settled outcome)) as Hp'.
    { intros H. rewrite list_lookup_insert_ne by lia.
      by apply lookup_app_l_Some, lookup_app_l_Some. }
    destruct later as [outcome'|]; [erewrite settle_settled by by apply Hp'|];
      cbn [state_of];
      (apply (chain_runs nextFn errorFn completeFn u _ (length h) (S (length h)));
       [lia| | |done]; heap_lookup; reflexivity).
Qed.

Lemma fromPromise_delivers_on_fulfilment_only_witness :
  let observed (st : promise_state (list notification)) later :=
    delivered (fun v => record (Next v)) (fun err => record (Error err)) (record Complete)
      0 later 2 (mkRuntime [] [st] []) in
  (exists w', observed (Settled (Fulfilled (VStr "x"))) None = Some w'
              /\ microtasks w' = []
              /\ user w' = [Next (VStr "x"); Complete])
  /\ (exists w', observed (Pending []) (Some (Rejected (Raised (VStr "no")))) = Some w'
                 /\ microtasks w' = []
                 /\ user w' = []).
Proof.
  split.
  - apply (fromPromise_delivers_on_fulfilment_only
             (fun v => record (Next v)) (fun err => record (Error err)) (record Complete)
             (mkRuntime [] [Settled (Fulfilled (VStr "x"))] []) 0
             (Settled (Fulfilled (VStr "x"))) None 2);
      [reflexivity|exact I|reflexivity|lia].
  - apply (fromPromise_delivers_on_fulfilment_only
             (fun v => record (Next v)) (fun err => record (Error err)) (record Complete)
             (mkRuntime [] [Pending []] []) 0
             (Pending []) (Some (Rejected (Raised (VStr "no")))) 2);
      [reflexivity|reflexivity|reflexivity|lia].
Defined.

(** ** [from] *)

Lemma split_chars_spec (s : string) :
  Rx.split_chars s = (fun c => VStr (String c EmptyString)) <$> list_ascii_of_string s.
Proof. induction s as [|c s IH]; [done|]. cbn. by f_equal. Qed.

Lemma map_entries_spec (entries : list (value * value)) (next_ref : nat) :
  Rx.map_entries entries next_ref
  = (imap (fun i kv => VArray (next_ref + i) [kv.1; kv.2]) entries,
     (next_ref + length entries)%nat).
Proof.
  revert next_ref. induction entries as [|[k v] entries IH]; intros next_ref.
  - cbn. by rewrite Nat.add_0_r.
  - cbn [Rx.map_entries]. rewrite IH. cbn [imap length fst snd]. f_equal.
    + rewrite Nat.add_0_r. f_equal. apply imap_ext. intros i [k' v'] _. cbn.
      do 2 f_equal. lia.
    + lia.
Qed.

(** C6. [from(input)] dispatches on the shape of [input]: a thenable gives
    [fromPromise(input)]; an array gives [of(...input)]; a non-empty string
    gives [of] over its characters in order; a [Map] gives [of] over its
    entries, each a new two-element array of key and value, in iteration
    order; any other input, such as [null], a number or a plain object,
    gives [undefined]. *)
Theorem from_dispatches_on_shape (next_ref : nat) :
  (forall p,
     Rx.from (VPromise p) next_ref
     = (FromPromiseObservable (Rx.fromPromise (Some (VPromise p))), next_ref))
  /\ (forall ref elems,
        Rx.from (VArray ref elems) next_ref = (FromObservable (Rx.of_ elems), next_ref))
  /\ (forall c rest,
        Rx.from (VStr (String c rest)) next_ref
        = (FromObservable
             (Rx.of_ ((fun c => VStr (String c EmptyString))
                        <$> list_ascii_of_string (String c rest))),
           next_ref))
  /\ (forall ref entries,
        Rx.from (VMap ref entries) next_ref
        = (FromObservable
             (Rx.of_ (imap (fun i kv => VArray (next_ref + i) [kv.1; kv.2]) entries)),
           (next_ref + length entries)%nat))
  /\ (forall input,
        recognised input = true \/ Rx.from input next_ref = (FromUndefined, next_ref))
  /\ Rx.from VNull next_ref = (FromUndefined, next_ref)
  /\ (forall n, Rx.from (VNum n) next_ref = (FromUndefined, next_ref))
  /\ (forall ref, Rx.from (VObject ref) next_ref = (FromUndefined, next_ref)).
Proof.
  split_and!.
  - reflexivity.
  - reflexivity.
  - intros c rest. rewrite <- split_chars_spec. reflexivity.
  - intros ref entries. unfold Rx.from. cbn [truthy Rx.has_then_function andb].
    by rewrite map_entries_spec.
  - intros [| |b|n| |s|ref elems|ref entries|ref|p];
      unfold Rx.from, recognised; cbn; rewrite ?andb_false_r; auto.
    destruct s; cbn; auto.
  - reflexivity.
  - intros n. unfold Rx.from. by rewrite andb_false_r.
  - reflexivity.
Qed.


(** * Further properties of the operators *)

(** ** [map] and [mapTo] *)

Lemma values_project f calls : values (project f <$> calls) = f <$> values calls.
Proof. induction calls as [|[v|err|] calls IH]; cbn; [done|by f_equal|done|done]. Qed.

Lemma terminals_project f calls : terminals (project f <$> calls) = terminals calls.
Proof. induction calls as [|[v|err|] calls IH]; cbn; [done|done|by f_equal|by f_equal]. Qed.

(** X1. [map], called as a method or statically with the source as second
    argument, forwards the projection of every upstream value, in order and
    one for one, and forwards [error] and [complete] as they are. *)
Theorem map_projects_each_value (projection : value -> value)
    (thisArgs : option Observable) (this : receiver) (source : Observable)
    (calls : list notification) :
  source_of thisArgs this = Some source ->
  emits source calls ->
  let out := project projection <$> calls in
  emits (Rx.map projection thisArgs this) out
  /\ values out = projection <$> values calls
  /\ terminals out = terminals calls
  /\ length out = length calls.
Proof.
  intros Hsource H out. split_and!.
  - by apply (map_emits _ _ _ source).
  - apply values_project.
  - apply terminals_project.
  - apply length_fmap.
Qed.

Lemma map_projects_each_value_witness :
  let calls := [Next (VNum 1); Error (VStr "e"); Next (VNum 2); Complete] in
  emits (Rx.map plus_ten None (Instance (producer calls)))
    [Next (VNum 11); Error (VStr "e"); Next (VNum 12); Complete].
Proof.
  apply (map_projects_each_value plus_ten None
           (Instance (producer [Next (VNum 1); Error (VStr "e"); Next (VNum 2); Complete]))
           (producer [Next (VNum 1); Error (VStr "e"); Next (VNum 2); Complete])
           [Next (VNum 1); Error (VStr "e"); Next (VNum 2); Complete]).
  - reflexivity.
  - intros S n e c s. reflexivity.
Defined.

(** X2. Two [map]s in a row behave as one [map] of the composed projection,
    and [mapTo(constant)] behaves as [map(() => constant)], for every source
    and every observer. *)
Theorem map_composes (o : Observable) (f g : value -> value) (constant : value) :
  forall (S : Type) (nextFn : nextFn_t S) (errorFn : errorFn_t S)
         (completeFn : completeFn_t S) (s : S),
    subscribe (Rx.map g None (Instance (Rx.map f None (Instance o))))
      nextFn errorFn completeFn s
    = subscribe (Rx.map (fun v => g (f v)) None (Instance o)) nextFn errorFn completeFn s
    /\ subscribe (Rx.mapTo constant o) nextFn errorFn completeFn s
       = subscribe (Rx.map (fun _ => constant) None (Instance o))
           nextFn errorFn completeFn s.
Proof. intros S n e c s. split; reflexivity. Qed.

(** ** The calling conventions of [map] and [filter] *)

(** X3. When the second argument of [map] or [filter] is an observable, only
    that observable is subscribed to, whatever the receiver; a static call
    without it fails with a [TypeError] as soon as the result is subscribed
    to, before any callback is called, and so does every operator applied on
    top of it ([startWith] after it has delivered its own values). *)
Theorem map_filter_calling_conventions (f : value -> value) (source : Observable)
    (this : receiver) (count : Z) (args : list value) :
  forall (S : Type) (nextFn : nextFn_t S) (errorFn : errorFn_t S)
         (completeFn : completeFn_t S) (s : S),
    subscribe (Rx.map f (Some source) this) nextFn errorFn completeFn s
    = subscribe (Rx.map f None (Instance source)) nextFn errorFn completeFn s
    /\ subscribe (Rx.filter f (Some source) this) nextFn errorFn completeFn s
       = subscribe (Rx.filter f None (Instance source)) nextFn errorFn completeFn s
    /\ subscribe (Rx.map f None Static) nextFn errorFn completeFn s
       = Throw not_a_function s
    /\ subscribe (Rx.filter f None Static) nextFn errorFn completeFn s
       = Throw not_a_function s
    /\ subscribe (Rx.take count (Rx.map f None Static)) nextFn errorFn completeFn s
       = Throw not_a_function s
    /\ subscribe (Rx.startWith args (Rx.filter f None Static))
         nextFn errorFn completeFn s
       = (forEach args nextFn ;; throw not_a_function) s.
Proof. intros S n e c s. split_and!; reflexivity. Qed.

(** ** [filter] *)

Lemma terminals_filter predicate calls :
  terminals (List.filter (passes predicate) calls) = terminals calls.
Proof.
  induction calls as [|[v|err|] calls IH]; cbn; [done| |by f_equal|by f_equal].
  by destruct (truthy (predicate v)).
Qed.

Lemma truthy_and a b : truthy (and_ a b) = truthy a && truthy b.
Proof. unfold and_. by destruct (truthy a) eqn:E. Qed.

Lemma filter_passes_twice p q calls :
  List.filter (passes q) (List.filter (passes p) calls)
  = List.filter (passes (fun v => and_ (p v) (q v))) calls.
Proof.
  induction calls as [|[v|err|] calls IH]; cbn; [done| |by f_equal|by f_equal].
  rewrite truthy_and. destruct (truthy (p v)); cbn; [|done].
  destruct (truthy (q v)); by rewrite IH.
Qed.

(** X4. [filter] forwards exactly the upstream values on which the predicate
    is truthy, in order and unchanged, and forwards [error] and [complete]
    as they are. *)
Theorem filter_keeps_truthy_values (predicate : value -> value)
    (thisArgs : option Observable) (this : receiver) (source : Observable)
    (calls : list notification) :
  source_of thisArgs this = Some source ->
  emits source calls ->
  let out := List.filter (passes predicate) calls in
  emits (Rx.filter predicate thisArgs this) out
  /\ values out = List.filter (fun v => truthy (predicate v)) (values calls)
  /\ terminals out = terminals calls.
Proof.
  intros Hsource H out. split_and!.
  - by apply (filter_emits _ _ _ source).
  - apply values_filter.
  - apply terminals_filter.
Qed.

Lemma filter_keeps_truthy_values_witness :
  let calls := [Next (VNum 1); Next (VNum 2); Error (VStr "e"); Next (VNum 4)] in
  emits (Rx.filter is_even (Some (producer calls)) Static)
    [Next (VNum 2); Error (VStr "e"); Next (VNum 4)].
Proof.
  apply (filter_keeps_truthy_values is_even
           (Some (producer [Next (VNum 1); Next (VNum 2); Error (VStr "e"); Next (VNum 4)]))
           Static
           (producer [Next (VNum 1); Next (VNum 2); Error (VStr "e"); Next (VNum 4)])
           [Next (VNum 1); Next (VNum 2); Error (VStr "e"); Next (VNum 4)]).
  - reflexivity.
  - intros S n e c s. reflexivity.
Defined.

(** X5. Two [filter]s in a row behave as one [filter] of the conjunction
    [p(x) && q(x)], the predicate of the second being consulted only on the
    values that the first lets through. *)
Theorem filter_composes (p q : value -> value) (o : Observable)
    (calls : list notification) :
  emits o calls ->
  forall (S : Type) (nextFn : nextFn_t S) (errorFn : errorFn_t S)
         (completeFn : completeFn_t S) (s : S),
    subscribe (Rx.filter q None (Instance (Rx.filter p None (Instance o))))
      nextFn errorFn completeFn s
    = subscribe (Rx.filter (fun v => and_ (p v) (q v)) None (Instance o))
        nextFn errorFn completeFn s.
Proof.
  intros H S n e c s.
  pose proof (filter_emits p None (Instance o) o calls eq_refl H) as Hp.
  pose proof (filter_emits q None (Instance _) _ _ eq_refl Hp) as Hpq.
  pose proof (filter_emits (fun v => and_ (p v) (q v)) None (Instance o) o calls
                eq_refl H) as Hand.
  by rewrite Hpq, Hand, filter_passes_twice.
Qed.

Lemma filter_composes_witness :
  let o := producer [Next (VNum 2); Next (VNum 12); Complete] in
  trace (Rx.filter plus_ten None (Instance (Rx.filter is_even None (Instance o))))
  = trace (Rx.filter (fun v => and_ (is_even v) (plus_ten v)) None (Instance o)).
Proof.
  apply (filter_composes is_even plus_ten
           (producer [Next (VNum 2); Next (VNum 12); Complete])
           [Next (VNum 2); Next (VNum 12); Complete]).
  intros S n e c s. reflexivity.
Defined.

(** ** [take], [first] and [skip] *)

Lemma forward_where_ext keep keep' prev calls :
  (forall prev v, keep prev v = keep' prev v) ->
  forward_where keep prev calls = forward_where keep' prev calls.
Proof.
  intros H. revert prev.
  induction calls as [|[v|err|] calls IH]; intros prev; cbn; [done| |by f_equal|by f_equal].
  by rewrite H, IH.
Qed.

(** Behind a [take(n)] that has seen [inner] values, a [take(m)] has seen
    [outer] values, as many as long as the first has not reached its count. *)
Lemma take_after_take m n inner outer calls :
  (Z.of_nat (length inner) <= n -> length outer = length inner) ->
  forward_where (within_count m) outer (forward_where (within_count n) inner calls)
  = forward_where (within_count (Z.min m n)) inner calls.
Proof.
  revert inner outer.
  induction calls as [|[v|err|] calls IH]; intros inner outer Hinv; cbn [forward_where].
  - done.
  - unfold within_count at 2 4.
    destruct (Z.leb_spec (Z.of_nat (length inner) + 1) n) as [Hn|Hn].
    + cbn [app forward_where]. unfold within_count at 1. rewrite Hinv by lia.
      rewrite (IH (inner ++ [v]) (outer ++ [v])).
      * destruct (Z.leb_spec (Z.of_nat (length inner) + 1) m),
          (Z.leb_spec (Z.of_nat (length inner) + 1) (Z.min m n)); (done || lia).
      * intros _. rewrite !length_app. cbn. lia.
    + cbn [app]. rewrite (IH (inner ++ [v]) outer).
      * destruct (Z.leb_spec (Z.of_nat (length inner) + 1) (Z.min m n)); (done || lia).
      * rewrite length_app. cbn. lia.
  - f_equal. by apply IH.
  - f_equal. by apply IH.
Qed.

(** X6. [take(m)] after [take(n)] behaves as [take(min(m, n))]. *)
Theorem take_composes (m n : Z) (o : Observable) (calls : list notification) :
  emits o calls ->
  forall (S : Type) (nextFn : nextFn_t S) (errorFn : errorFn_t S)
         (completeFn : completeFn_t S) (s : S),
    subscribe (Rx.take m (Rx.take n o)) nextFn errorFn completeFn s
    = subscribe (Rx.take (Z.min m n) o) nextFn errorFn completeFn s.
Proof.
  intros H S nextFn e c s.
  rewrite (take_emits m _ _ (take_emits n _ _ H)), (take_emits (Z.min m n) _ _ H).
  by rewrite take_after_take.
Qed.

Lemma take_composes_witness :
  let o := producer [Next (VNum 1); Next (VNum 2); Next (VNum 3); Complete] in
  trace (Rx.take 5 (Rx.take 2 o)) = trace (Rx.take 2 o).
Proof.
  apply (take_composes 5 2
           (producer [Next (VNum 1); Next (VNum 2); Next (VNum 3); Complete])
           [Next (VNum 1); Next (VNum 2); Next (VNum 3); Complete]).
  intros S n e c s. reflexivity.
Defined.

Lemma take_everything count prev calls :
  Z.of_nat (length prev + length (values calls)) <= count ->
  forward_where (within_count count) prev calls = calls.
Proof.
  unfold values. revert prev.
  induction calls as [|[v|err|] calls IH]; intros prev Hle; cbn [forward_where].
  - done.
  - cbn in Hle. unfold within_count.
    destruct (Z.leb_spec (Z.of_nat (length prev) + 1) count); [|lia].
    cbn. f_equal. apply IH. rewrite length_app. cbn. lia.
  - f_equal. by apply IH.
  - f_equal. by apply IH.
Qed.

(** X7. A [take(count)] whose count is at least the number of values that
    the upstream sends changes nothing: it makes the same calls as its
    source. *)
Theorem take_of_at_least_all_is_identity (count : Z) (o : Observable)
    (calls : list notification) :
  emits o calls ->
  Z.of_nat (length (values calls)) <= count ->
  emits (Rx.take count o) calls.
Proof.
  intros H Hcount. pose proof (take_emits count o calls H) as H'.
  by rewrite take_everything in H'.
Qed.

Lemma take_of_at_least_all_is_identity_witness :
  let calls := [Next (VNum 1); Next (VNum 2); Complete] in
  emits (Rx.take 2 (producer calls)) calls.
Proof.
  apply (take_of_at_least_all_is_identity 2
           (producer [Next (VNum 1); Next (VNum 2); Complete])
           [Next (VNum 1); Next (VNum 2); Complete]).
  - intros S n e c s. reflexivity.
  - cbn. lia.
Defined.

(** X8. A [take(count)] with a count of zero or less forwards no value at
    all, and still forwards every [error] and [complete]. *)
Theorem take_of_nothing (count : Z) (o : Observable) (calls : list notification) :
  emits o calls ->
  count <= 0 ->
  emits (Rx.take count o) (terminals calls).
Proof.
  intros H Hcount.
  replace (terminals calls) with (forward_where (within_count count) [] calls);
    [by apply take_emits|].
  clear H. generalize (@nil value).
  induction calls as [|[v|err|] calls IH]; intros prev;
    cbn [forward_where terminals List.filter is_next negb].
  - done.
  - unfold within_count.
    destruct (Z.leb_spec (Z.of_nat (length prev) + 1) count); [lia|]. apply IH.
  - f_equal. apply IH.
  - f_equal. apply IH.
Qed.

Lemma take_of_nothing_witness :
  let calls := [Next (VNum 1); Error (VStr "e"); Next (VNum 2); Complete] in
  emits (Rx.take 0 (producer calls)) [Error (VStr "e"); Complete].
Proof.
  apply (take_of_nothing 0
           (producer [Next (VNum 1); Error (VStr "e"); Next (VNum 2); Complete])
           [Next (VNum 1); Error (VStr "e"); Next (VNum 2); Complete]).
  - intros S n e c s. reflexivity.
  - lia.
Defined.

Lemma existsb_always (prev : list value) :
  existsb (fun _ => true) prev = negb (Z.of_nat (length prev) + 1 <=? 1).
Proof.
  destruct prev; cbn [existsb length]; [done|].
  by destruct (Z.leb_spec (Z.of_nat (S (length prev)) + 1) 1); [lia|].
Qed.

(** X9. Without a predicate, [first()] behaves as [take(1)]: it forwards
    the first value of the upstream and no other, and every [error] and
    [complete]. *)
Theorem first_without_predicate_is_take_one (o : Observable)
    (calls : list notification) :
  emits o calls ->
  forall (S : Type) (nextFn : nextFn_t S) (errorFn : errorFn_t S)
         (completeFn : completeFn_t S) (s : S),
    subscribe (Rx.first (NotFn VUndefined) o) nextFn errorFn completeFn s
    = subscribe (Rx.take 1 o) nextFn errorFn completeFn s.
Proof.
  intros H S n e c s.
  rewrite (first_emits _ _ _ H), (take_emits _ _ _ H).
  f_equal. apply forward_where_ext. intros prev v.
  unfold first_selected, within_count. cbn [selects strict_eq andb].
  rewrite existsb_always. by destruct (_ <=? 1).
Qed.

Lemma first_without_predicate_is_take_one_witness :
  let o := producer [Next (VNum 1); Next (VNum 2); Next (VNum 4); Complete] in
  trace (Rx.first (NotFn VUndefined) o) = trace (Rx.take 1 o).
Proof.
  apply (first_without_predicate_is_take_one
           (producer [Next (VNum 1); Next (VNum 2); Next (VNum 4); Complete])
           [Next (VNum 1); Next (VNum 2); Next (VNum 4); Complete]).
  intros S n e c s. reflexivity.
Defined.

(** X10. When the argument of [first] is neither a function nor [undefined]
    ([null], a number, a string, ...), no value is ever forwarded: only the
    [error] and [complete] calls of the upstream are. *)
Theorem first_with_unusable_predicate (p : value) (o : Observable)
    (calls : list notification) :
  emits o calls ->
  strict_eq p VUndefined = false ->
  emits (Rx.first (NotFn p) o) (terminals calls).
Proof.
  intros H Hp.
  replace (terminals calls) with (forward_where (first_selected (NotFn p)) [] calls);
    [by apply first_emits|].
  clear H. generalize (@nil value).
  induction calls as [|[v|err|] calls IH]; intros prev;
    cbn [forward_where terminals List.filter is_next negb].
  - done.
  - replace (first_selected (NotFn p) prev v) with false
      by (unfold first_selected; cbn [selects]; by rewrite Hp).
    apply IH.
  - f_equal. apply IH.
  - f_equal. apply IH.
Qed.

Lemma first_with_unusable_predicate_witness :
  let calls := [Next (VNum 1); Next (VNum 2); Complete] in
  emits (Rx.first (NotFn VNull) (producer calls)) [Complete].
Proof.
  apply (first_with_unusable_predicate VNull
           (producer [Next (VNum 1); Next (VNum 2); Complete])
           [Next (VNum 1); Next (VNum 2); Complete]).
  - intros S n e c s. reflexivity.
  - reflexivity.
Defined.

Lemma forward_where_sublist keep prev calls :
  sublist (values (forward_where keep prev calls)) (values calls).
Proof.
  revert prev. induction calls as [|[v|err|] calls IH]; intros prev; cbn [forward_where].
  - done.
  - rewrite values_app. change (values (Next v :: calls)) with (v :: values calls).
    destruct (keep prev v); cbn.
    + by apply sublist_skip.
    + by apply sublist_cons.
  - apply IH.
  - apply IH.
Qed.

Lemma filter_sublist predicate calls :
  sublist (values (List.filter (passes predicate) calls)) (values calls).
Proof.
  rewrite values_filter. induction (values calls) as [|v vs IH]; [done|]. cbn.
  destruct (truthy (predicate v)); [by apply sublist_skip|by apply sublist_cons].
Qed.

(** X11. The filtering operators only drop values: what [filter], [take],
    [first] and [skip] forward is a subsequence of the upstream values, in
    the same order and unchanged, and every [error] and [complete] of the
    upstream is forwarded. *)
Theorem filtering_forwards_a_subsequence (operator : filtering) (source : Observable)
    (calls : list notification) :
  emits source calls ->
  exists out,
    emits (apply_filtering operator source) out
    /\ sublist (values out) (values calls)
    /\ terminals out = terminals calls.
Proof.
  intros H. destruct operator as [predicate|count|predicate|the]; cbn [apply_filtering].
  - exists (List.filter (passes predicate) calls). split_and!.
    + by apply (filter_emits _ _ _ source).
    + apply filter_sublist.
    + apply terminals_filter.
  - exists (forward_where (within_count count) [] calls). split_and!.
    + by apply take_emits.
    + apply forward_where_sublist.
    + apply forward_where_terminals.
  - exists (forward_where (first_selected predicate) [] calls). split_and!.
    + by apply first_emits.
    + apply forward_where_sublist.
    + apply forward_where_terminals.
  - exists (forward_where (after_match the) [] calls). split_and!.
    + by apply skip_emits.
    + apply forward_where_sublist.
    + apply forward_where_terminals.
Qed.

Lemma filtering_forwards_a_subsequence_witness :
  let calls := [Next (VNum 1); Next (VNum 2); Next (VNum 3); Complete] in
  exists out,
    emits (apply_filtering (BySkip (VNum 1)) (producer calls)) out
    /\ sublist (values out) (values calls)
    /\ terminals out = terminals calls.
Proof.
  apply (filtering_forwards_a_subsequence (BySkip (VNum 1))
           (producer [Next (VNum 1); Next (VNum 2); Next (VNum 3); Complete])
           [Next (VNum 1); Next (VNum 2); Next (VNum 3); Complete]).
  intros S n e c s. reflexivity.
Defined.

Lemma after_first_suffix (P : value -> bool) (vs : list value) :
  exists dropped, vs = dropped ++ after_first P vs /\ (vs = [] \/ dropped <> []).
Proof.
  induction vs as [|v vs (dropped & IH & _)].
  - exists []. auto.
  - cbn. destruct (P v).
    + exists [v]. split; [done|by right].
    + exists (v :: dropped). split; [by rewrite <- app_comm_cons, <- IH|by right].
Qed.

(** X12. [skip] forwards a suffix of the upstream values, and never the
    first one: whatever the threshold, at least one value is suppressed
    as soon as the upstream sends one. *)
Theorem skip_forwards_a_proper_suffix (the : value) (o : Observable)
    (calls : list notification) :
  emits o calls ->
  exists out dropped,
    emits (Rx.skip the o) out
    /\ values calls = dropped ++ values out
    /\ (values calls = [] \/ dropped <> []).
Proof.
  intros H.
  destruct (after_first_suffix (fun v => strict_eq v the) (values calls))
    as (dropped & E & Hdropped).
  exists (forward_where (after_match the) [] calls), dropped. split_and!.
  - by apply skip_emits.
  - by rewrite skip_values.
  - done.
Qed.

Lemma skip_forwards_a_proper_suffix_witness :
  let calls := [Next (VNum 3); Next (VNum 4); Complete] in
  exists out dropped,
    emits (Rx.skip (VNum 3) (producer calls)) out
    /\ values calls = dropped ++ values out
    /\ (values calls = [] \/ dropped <> []).
Proof.
  apply (skip_forwards_a_proper_suffix (VNum 3)
           (producer [Next (VNum 3); Next (VNum 4); Complete])
           [Next (VNum 3); Next (VNum 4); Complete]).
  intros S n e c s. reflexivity.
Defined.


(** ** [startWith] *)

(** X13. [startWith] first delivers its arguments, in order, and then makes
    the calls of its source, values as well as [error] and [complete]. *)
Theorem startWith_prepends_arguments (args : list value) (o : Observable)
    (calls : list notification) :
  emits o calls ->
  let out := (Next <$> args) ++ calls in
  emits (Rx.startWith args o) out
  /\ values out = args ++ values calls
  /\ terminals out = terminals calls.
Proof.
  intros H out. split_and!.
  - by apply startWith_emits.
  - unfold out. by rewrite values_app, values_nexts.
  - unfold out. rewrite terminals_app.
    replace (terminals (Next <$> args)) with (@nil notification); [done|].
    induction args as [|a args IH]; [done|apply IH].
Qed.

Lemma startWith_prepends_arguments_witness :
  let calls := [Next (VNum 1); Error (VStr "e")] in
  emits (Rx.startWith [VNum (-1); VNum 0] (producer calls))
    [Next (VNum (-1)); Next (VNum 0); Next (VNum 1); Error (VStr "e")].
Proof.
  apply (startWith_prepends_arguments [VNum (-1); VNum 0]
           (producer [Next (VNum 1); Error (VStr "e")])
           [Next (VNum 1); Error (VStr "e")]).
  intros S n e c s. reflexivity.
Defined.

(** X14. For every source and every observer, [startWith] on top of
    [startWith] behaves as one [startWith] of the outer arguments followed
    by the inner ones, and [startWith()] without arguments behaves as the
    source. *)
Theorem startWith_composes (a b : list value) (o : Observable) :
  forall (S : Type) (nextFn : nextFn_t S) (errorFn : errorFn_t S)
         (completeFn : completeFn_t S) (s : S),
    subscribe (Rx.startWith a (Rx.startWith b o)) nextFn errorFn completeFn s
    = subscribe (Rx.startWith (a ++ b) o) nextFn errorFn completeFn s
    /\ subscribe (Rx.startWith [] o) nextFn errorFn completeFn s
       = subscribe o nextFn errorFn completeFn s.
Proof.
  intros S n e c s. split; [|reflexivity].
  cbn [subscribe Rx.startWith].
  etransitivity; [|symmetry; apply bind_ext_l; [intros; apply forEach_app|reflexivity]].
  symmetry. apply bind_assoc.
Qed.

(** ** [concat] *)

Lemma build_emits_emitted (p : pipeline) :
  emits (build p) ((Next <$> emitted (build p)) ++ [Complete]).
Proof.
  destruct (build_emits p) as (vs & H). unfold emitted.
  rewrite (emits_trace _ _ H). cbn [state_of].
  by rewrite values_app, values_nexts, app_nil_r.
Qed.

Lemma chained_pipelines (ps : list pipeline) :
  chained (List.map (fun q => (Next <$> emitted (build q)) ++ [Complete]) ps)
  = Next <$> joined ps.
Proof.
  unfold joined. induction ps as [|q ps IH]; [done|]. cbn [List.map chained List.concat].
  rewrite without_complete_app, has_complete_app, without_complete_nexts, IH.
  cbn. by rewrite orb_true_r, app_nil_r, fmap_app.
Qed.

Lemma pipelines_emit (ps : list pipeline) :
  Forall2 emits (List.map build ps)
    (List.map (fun q => (Next <$> emitted (build q)) ++ [Complete]) ps).
Proof.
  induction ps as [|q ps IH]; constructor; [apply build_emits_emitted|apply IH].
Qed.

Lemma concat_pipeline_emits (p : pipeline) (ps : list pipeline) :
  emits (build (PConcat p ps))
    ((Next <$> (emitted (build p) ++ joined ps)) ++ [Complete]).
Proof.
  pose proof (concat_emits _ _ _ _ (build_emits_emitted p) (pipelines_emit ps)) as H.
  unfold concat_calls in H. rewrite flat_map_app, chained_pipelines in H.
  cbn [flat_map] in H. rewrite app_nil_r in H. cbn [build]. rewrite fmap_app.
  replace (Next <$> emitted (build p))
    with (flat_map (fun n => match n with Complete => Next <$> joined ps | _ => [n] end)
            (Next <$> emitted (build p))); [exact H|].
  generalize (emitted (build p)). clear H.
  intros vs. induction vs as [|v vs IH]; [done|].
  cbn [fmap list_fmap flat_map app]. f_equal. exact IH.
Qed.

(** X15. For observables built with the synchronous operators, the method
    call [o.concat(o1, ..., on)] delivers the values of [o], then those of
    [o1], ..., then those of [on], and completes once at the end; the static
    call [Observable.concat(o1, ..., on)] does the same with [o1, ..., on]. *)
Theorem concat_joins_the_values (p : pipeline) (ps : list pipeline) :
  emits (build (PConcat p ps))
    ((Next <$> (emitted (build p) ++ joined ps)) ++ [Complete])
  /\ emits (build (PConcatStatic ps)) ((Next <$> joined ps) ++ [Complete])
  /\ emitted (build (PConcat p ps)) = emitted (build p) ++ joined ps
  /\ emitted (build (PConcatStatic ps)) = joined ps.
Proof.
  assert (emits (build (PConcatStatic ps)) ((Next <$> joined ps) ++ [Complete])) as Hs.
  { rewrite <- chained_pipelines. apply concat_static_emits, pipelines_emit. }
  split_and!.
  - apply concat_pipeline_emits.
  - exact Hs.
  - unfold emitted at 1. rewrite (emits_trace _ _ (concat_pipeline_emits p ps)).
    cbn [state_of]. by rewrite values_app, values_nexts, app_nil_r.
  - unfold emitted at 1. rewrite (emits_trace _ _ Hs).
    cbn [state_of]. by rewrite values_app, values_nexts, app_nil_r.
Qed.

Lemma concat_joins_the_values_helper (p : pipeline) (ps : list pipeline) :
  emitted (build (PConcat p ps)) = emitted (build p) ++ joined ps.
Proof.
  unfold emitted at 1. rewrite (emits_trace _ _ (concat_pipeline_emits p ps)).
  cbn [state_of]. by rewrite values_app, values_nexts, app_nil_r.
Qed.

Lemma joined_app (ps qs : list pipeline) : joined (ps ++ qs) = joined ps ++ joined qs.
Proof. unfold joined. by rewrite List.map_app, List.concat_app. Qed.

(** X16. On observables built with the synchronous operators, [concat] can
    be nested at will: [o.concat(bs...).concat(cs...)] makes the same calls
    as [o.concat(bs..., cs...)], and [o.concat()] the same calls as [o]. *)
Theorem concat_nests (p : pipeline) (bs cs : list pipeline) :
  forall (S : Type) (nextFn : nextFn_t S) (errorFn : errorFn_t S)
         (completeFn : completeFn_t S) (s : S),
    subscribe (build (PConcat (PConcat p bs) cs)) nextFn errorFn completeFn s
    = subscribe (build (PConcat p (bs ++ cs))) nextFn errorFn completeFn s
    /\ subscribe (build (PConcat p [])) nextFn errorFn completeFn s
       = subscribe (build p) nextFn errorFn completeFn s.
Proof.
  intros S n e c s. split.
  - rewrite (concat_pipeline_emits (PConcat p bs) cs), (concat_pipeline_emits p (bs ++ cs)).
    rewrite (concat_joins_the_values_helper p bs).
    by rewrite joined_app, app_assoc.
  - rewrite (concat_pipeline_emits p []), (build_emits_emitted p).
    unfold joined. cbn. by rewrite app_nil_r.
Qed.

Lemma without_complete_id calls :
  has_complete calls = false -> without_complete calls = calls.
Proof.
  induction calls as [|[v|err|] calls IH]; intros H; cbn in *;
    [done|by f_equal; apply IH|by f_equal; apply IH|done].
Qed.

(** X17. When the first observable of a [concat] (the receiver of the
    method call, the first argument of the static call) does not call
    [complete] during its [subscribe], because it fails or does not
    terminate, the other observables are never subscribed to, whatever they
    are, and [completeFn] is called all the same, right after the calls of
    the first observable: after an [error], the observer still receives
    [complete]. *)
Theorem concat_completes_without_its_first_source (o : Observable)
    (calls : list notification) (others : list Observable) :
  emits o calls ->
  has_complete calls = false ->
  emits (Rx.concat others (Instance o)) (calls ++ [Complete])
  /\ emits (Rx.concat (o :: others) Static) (calls ++ [Complete]).
Proof.
  intros Ho Hcalls. split; intros S n e c s; cbn [subscribe Rx.concat];
    rewrite replay_app;
    (apply bind_ext_l; [clear s; intros s|intros [] s'; by rewrite replay_one]).
  - rewrite Ho. by apply replay_without_complete.
  - unfold Rx.concat_callback. cbn [forEach].
    match goal with
    | |- let_local true (_ ;; ?K) s = _ =>
        transitivity
          (let_local false
             (subscribe o (fun v => outer (n v)) (fun err => outer (e err))
                (set_local true) ;; K) s);
        [reflexivity|]
    end.
    etransitivity.
    { apply (let_local_ext false); intros s'.
      apply bind_ext_l; [apply Ho|reflexivity]. }
    rewrite (callback_one n e c), Hcalls, without_complete_id by done. cbn [orb].
    etransitivity; [apply bind_ext; intros [] s'; apply callback_passes_over|].
    apply bind_ret_r.
Qed.

Lemma concat_completes_without_its_first_source_witness :
  let failing := producer [Next (VNum 1); Error (VStr "e")] in
  emits (Rx.concat [Rx.of_ [VNum 2]] (Instance failing))
    [Next (VNum 1); Error (VStr "e"); Complete]
  /\ emits (Rx.concat [failing; Rx.of_ [VNum 2]] Static)
       [Next (VNum 1); Error (VStr "e"); Complete].
Proof.
  apply (concat_completes_without_its_first_source
           (producer [Next (VNum 1); Error (VStr "e")])
           [Next (VNum 1); Error (VStr "e")] [Rx.of_ [VNum 2]]).
  - intros S n e c s. reflexivity.
  - reflexivity.
Defined.


(** ** [from] *)

Lemma concat_chars (s : string) :
  String.concat EmptyString ((fun c => String c EmptyString) <$> list_ascii_of_string s) = s.
Proof.
  induction s as [|c s IH]; [done|].
  cbn [list_ascii_of_string fmap list_fmap].
  destruct s as [|c' s']; [done|].
  cbn [list_ascii_of_string fmap list_fmap String.concat] in *.
  rewrite IH. reflexivity.
Qed.

(** X18. On a non-empty string, [from] returns an observable that delivers
    the string one character at a time, each as a string of length one, and
    then completes: putting the delivered strings together gives the input
    back.  The empty string gives [undefined]. *)
Theorem from_string_round_trip (c : Ascii.ascii) (rest : string) (next_ref : nat) :
  let input := String c rest in
  (exists o texts,
     Rx.from (VStr input) next_ref = (FromObservable o, next_ref)
     /\ emits o ((Next <$> (VStr <$> texts)) ++ [Complete])
     /\ String.concat EmptyString texts = input
     /\ Forall (fun t => String.length t = 1%nat) texts
     /\ length texts = String.length input)
  /\ Rx.from (VStr EmptyString) next_ref = (FromUndefined, next_ref).
Proof.
  intros input. split; [|reflexivity].
  exists (Rx.of_ (Rx.split_chars input)),
    ((fun c => String c EmptyString) <$> list_ascii_of_string input).
  split_and!.
  - reflexivity.
  - replace (VStr <$> ((fun c => String c EmptyString) <$> list_ascii_of_string input))
      with (Rx.split_chars input); [apply of_emits|].
    rewrite split_chars_spec. by rewrite <- list_fmap_compose.
  - apply concat_chars.
  - apply Forall_fmap, Forall_forall. by intros.
  - rewrite length_fmap. generalize input. clear.
    intros s. induction s as [|c s IH]; [done|]. cbn. by rewrite IH.
Qed.

Lemma map_entries_lookup (entries : list (value * value)) (next_ref i : nat) (a : value) :
  (Rx.map_entries entries next_ref).1 !! i = Some a ->
  exists k v, entries !! i = Some (k, v) /\ a = VArray (next_ref + i) [k; v].
Proof.
  rewrite map_entries_spec. cbn [fst]. rewrite list_lookup_imap.
  destruct (entries !! i) as [[k v]|]; [|done]. intros [= <-]. by exists k, v.
Qed.

Lemma map_entries_round_trip (entries : list (value * value)) (next_ref : nat) :
  omap entry_of (Rx.map_entries entries next_ref).1 = entries.
Proof.
  revert next_ref. induction entries as [|[k v] entries IH]; intros next_ref; [done|].
  cbn [Rx.map_entries]. specialize (IH (S next_ref)).
  destruct (Rx.map_entries entries (S next_ref)) as [arrays next_ref'].
  cbn in *. by rewrite IH.
Qed.

Lemma new_array_is_no_earlier_object (r next_ref : nat) (elems : list value) (the : value) :
  earlier next_ref the ->
  (next_ref <= r)%nat ->
  strict_eq (VArray r elems) the = false /\ strict_eq the (VArray r elems) = false.
Proof.
  unfold earlier. intros Hthe Hr.
  destruct the; cbn in *; try done; split; apply Nat.eqb_neq; lia.
Qed.

(** X19. On a [Map], [from] returns [of] over one new array per entry, which
    hold the keys and values of the entries in iteration order.  When the
    allocation counter is above the references of the objects that exist,
    the new arrays are new objects: none is [===] to a primitive or to an
    object allocated earlier (the [Map] itself, its keys and values, ...),
    no two of them are [===], and the counter that [from] returns is above
    them in turn. *)
Theorem from_map_allocates_the_entries (ref : nat) (entries : list (value * value))
    (next_ref : nat) (the : value) :
  earlier next_ref the ->
  exists arrays,
    Rx.from (VMap ref entries) next_ref
    = (FromObservable (Rx.of_ arrays), (next_ref + length entries)%nat)
    /\ length arrays = length entries
    /\ omap entry_of arrays = entries
    /\ Forall (fun a => strict_eq a the = false /\ strict_eq the a = false) arrays
    /\ (forall i j a b,
          arrays !! i = Some a -> arrays !! j = Some b -> strict_eq a b = true -> i = j)
    /\ Forall (earlier (next_ref + length entries)) arrays.
Proof.
  intros Hthe. exists (Rx.map_entries entries next_ref).1. split_and!.
  - unfold Rx.from. cbn [truthy Rx.has_then_function andb].
    by rewrite map_entries_spec.
  - rewrite map_entries_spec. cbn [fst]. apply length_imap.
  - apply map_entries_round_trip.
  - apply Forall_lookup. intros i a (k & v & _ & ->)%map_entries_lookup.
    apply (new_array_is_no_earlier_object _ next_ref); [done|lia].
  - intros i j a b (k & v & _ & ->)%map_entries_lookup
      (k' & v' & _ & ->)%map_entries_lookup Heq.
    cbn in Heq. apply Nat.eqb_eq in Heq. lia.
  - apply Forall_lookup. intros i a Ha.
    pose proof (lookup_lt_Some _ _ _ Ha) as Hi.
    apply map_entries_lookup in Ha as (k & v & _ & ->).
    rewrite map_entries_spec in Hi. cbn [fst] in Hi. rewrite length_imap in Hi.
    unfold earlier. cbn. lia.
Qed.

Lemma from_map_allocates_the_entries_witness :
  let map := VMap 0 [(VNum 1, VStr "Hi"); (VNum 2, VStr "Bye")] in
  exists arrays,
    Rx.from map 1 = (FromObservable (Rx.of_ arrays), 3%nat)
    /\ length arrays = 2%nat
    /\ omap entry_of arrays = [(VNum 1, VStr "Hi"); (VNum 2, VStr "Bye")]
    /\ Forall (fun a => strict_eq a map = false /\ strict_eq map a = false) arrays
    /\ (forall i j a b,
          arrays !! i = Some a -> arrays !! j = Some b -> strict_eq a b = true -> i = j)
    /\ Forall (earlier 3) arrays.
Proof.
  apply (from_map_allocates_the_entries 0 [(VNum 1, VStr "Hi"); (VNum 2, VStr "Bye")] 1
           (VMap 0 [(VNum 1, VStr "Hi"); (VNum 2, VStr "Bye")])).
  unfold earlier. cbn. lia.
Defined.

(** ** Two subscriptions to one promise *)

(** X21. When two observers subscribe to [fromPromise(p)] for a fulfilled
    [p], each receives [next(v)] and then [complete()], and the jobs
    interleave the two subscriptions: both [next] calls are made, in the
    order of subscription, before the first [complete]. *)
Theorem fromPromise_subscriptions_interleave {U : Type}
    (next1 : nextFn_t U) (error1 : errorFn_t U) (complete1 : completeFn_t U)
    (next2 : nextFn_t U) (error2 : errorFn_t U) (complete2 : completeFn_t U)
    (w : runtime U) (p : nat) (v : value) (fuel : nat) :
  promises w !! p = Some (Settled (Fulfilled v)) ->
  microtasks w = [] ->
  (4 <= fuel)%nat ->
  let o := Rx.fromPromise (Some (VPromise p)) in
  let w1 := state_of (subscribe_later o next1 error1 complete1 w) in
  let w2 := state_of (subscribe_later o next2 error2 complete2 w1) in
  exists w',
    drain fuel w2 = Some w'
    /\ microtasks w' = []
    /\ user w' = interleaved next1 complete1 next2 complete2 v (user w).
Proof.
  intros Hp Hqueue Hfuel. destruct w as [u h queue]. cbn in Hp, Hqueue. subst queue.
  pose proof (lookup_lt_Some _ _ _ Hp) as Hlt.
  do 4 (destruct fuel as [|fuel]; [lia|]). clear Hfuel.
  cbn zeta. rewrite !subscribe_later_fromPromise. unfold bind, ret.
  rewrite (promise_then_settled _ _ _ _ _ _ Hp). cbn [app].
  erewrite promise_then_pending by (heap_lookup; reflexivity).
  cbn [state_of app].
  erewrite promise_then_settled by (heap_lookup; exact Hp).
  erewrite promise_then_pending by (heap_lookup; reflexivity).
  cbn [state_of app].
  repeat (rewrite length_insert || rewrite length_app). cbn [length].
  replace (length h + 1)%nat with (S (length h)) by lia.
  replace (S (length h) + 1)%nat with (S (S (length h))) by lia.
  replace (S (S (length h)) + 1)%nat with (S (S (S (length h)))) by lia.
  rewrite drain_step.
  erewrite run_job_fulfilled by (cbn [derived]; heap_lookup; reflexivity).
  unfold interleaved. cbn [on_fulfilled derived user].
  destruct (next1 v u) as [[] u1|exn1 u1]; cbn [state_of app fmap list_fmap];
    rewrite drain_step;
    (erewrite run_job_fulfilled by (cbn [derived]; heap_lookup; reflexivity));
    cbn [on_fulfilled derived];
    (destruct (next2 v u1) as [[] u2|exn2 u2]; cbn [state_of app fmap list_fmap]);
    rewrite drain_step;
    first [ erewrite run_job_fulfilled by (cbn [derived]; heap_lookup; reflexivity);
            cbn [on_fulfilled derived];
            destruct (complete1 u2) as [[] u3|exn3 u3]
          | erewrite run_job_rejected by (cbn [derived]; heap_lookup; reflexivity) ];
    cbn [state_of app fmap list_fmap];
    rewrite drain_step;
    first [ erewrite run_job_fulfilled by (cbn [derived]; heap_lookup; reflexivity);
            cbn [on_fulfilled derived];
            match goal with |- context [complete2 ?x] => destruct (complete2 x) as [[] u4|exn4 u4] end
          | erewrite run_job_rejected by (cbn [derived]; heap_lookup; reflexivity) ];
    cbn [state_of app fmap list_fmap];
    rewrite drain_empty by done; eauto.
Qed.


Lemma fromPromise_subscriptions_interleave_witness :
  let o := Rx.fromPromise (Some (VPromise 0)) in
  let rec_next := fun v => record (Next v) in
  let rec_error := fun err => record (Error err) in
  let w := mkRuntime [] [Settled (Fulfilled (VStr "x"))] [] in
  let w1 := state_of (subscribe_later o rec_next rec_error (record Complete) w) in
  let w2 := state_of (subscribe_later o rec_next rec_error (record Complete) w1) in
  exists w',
    drain 4 w2 = Some w'
    /\ microtasks w' = []
    /\ user w' = [Next (VStr "x"); Next (VStr "x"); Complete; Complete].
Proof.
  apply (fromPromise_subscriptions_interleave
           (fun v => record (Next v)) (fun err => record (Error err)) (record Complete)
           (fun v => record (Next v)) (fun err => record (Error err)) (record Complete)
           (mkRuntime [] [Settled (Fulfilled (VStr "x"))] []) 0 (VStr "x") 4);
    [reflexivity|reflexivity|lia].
Defined.

(** ** [interval] *)

Section Interval.
Context {U : Type}.
Implicit Types (u : U) (h : list (timer U)) (t : timer U) (n : value -> M U unit).

Lemma fire_live h t rest u :
  cleared t = false ->
  fire (length h) (mkScheduler u (h ++ t :: rest))
  = match handler_nextFn t (VNum (count t)) u with
    | Normal _ u' =>
        Normal tt (mkScheduler u'
                     (h ++ mkTimer (period t) (count t + 1) (handler_nextFn t) false :: rest))
    | Throw exn u' =>
        Throw exn (mkScheduler u'
                     (h ++ mkTimer (period t) (count t + 1) (handler_nextFn t) false :: rest))
    end.
Proof.
  intros Hlive. unfold fire. cbn [timers observer_state].
  rewrite list_lookup_middle by done. rewrite Hlive.
  rewrite insert_app_r_alt by done. rewrite Nat.sub_diag. reflexivity.
Qed.

Lemma fire_cleared h t rest u :
  cleared t = true ->
  fire (length h) (mkScheduler u (h ++ t :: rest)) = Normal tt (mkScheduler u (h ++ t :: rest)).
Proof.
  intros Hcleared. unfold fire. cbn [timers].
  rewrite list_lookup_middle by done. by rewrite Hcleared.
Qed.

Lemma clearInterval_middle h t rest u :
  clearInterval (length h) (mkScheduler u (h ++ t :: rest))
  = Normal tt (mkScheduler u
                 (h ++ mkTimer (period t) (count t) (handler_nextFn t) true :: rest)).
Proof.
  unfold clearInterval. cbn [timers observer_state]. do 2 f_equal.
  rewrite alter_app_r_alt by done. by rewrite Nat.sub_diag.
Qed.

Lemma fire_counts n e c p h rest k i u :
  observed (forEach (replicate k (length h)) fire
              (mkScheduler u (h ++ mkTimer p i n false :: rest)))
  = replay n e c (counting_from i k) u
  /\ forall w,
       forEach (replicate k (length h)) fire
         (mkScheduler u (h ++ mkTimer p i n false :: rest)) = Normal tt w ->
       timers w = h ++ mkTimer p (i + Z.of_nat k) n false :: rest.
Proof.
  revert i u. induction k as [|k IH]; intros i u.
  - split; [reflexivity|]. intros w [= <-]. cbn. by rewrite Z.add_0_r.
  - cbn [replicate forEach counting_from]. rewrite replay_cons. unfold bind.
    rewrite fire_live by done. cbn [handler_nextFn count period notify].
    destruct (n (VNum i) u) as [[] u'|exn u']; [|split; [done|by intros]].
    destruct (IH (i + 1) u') as [IH1 IH2]. split; [exact IH1|].
    intros w Hw. rewrite (IH2 w Hw). do 3 f_equal. lia.
Qed.
End Interval.

(** X22. Each firing of the timer of an [interval] subscription calls
    [next] with the number of earlier firings: after [k] firings the
    observer has received 0, 1, ..., k-1, in order; [subscribe] itself calls
    nothing, and [error] and [complete] are never called. *)
Theorem interval_counts_its_firings {U : Type} (period_ : value)
    (nextFn : nextFn_t U) (errorFn : errorFn_t U) (completeFn : completeFn_t U)
    (w : scheduler U) (k : nat) :
  let id := length (timers w) in
  exists teardown w1,
    subscribe_timer (Rx.interval period_) nextFn w = Normal teardown w1
    /\ observer_state w1 = observer_state w
    /\ observed (forEach (replicate k id) fire w1)
       = replay nextFn errorFn completeFn (counting_from 0 k) (observer_state w)
    /\ values (counting_from 0 k) = (fun i => VNum (Z.of_nat i)) <$> seq 0 k.
Proof.
  destruct w as [u h]. cbn [timers observer_state].
  eexists _, _. split_and!.
  - reflexivity.
  - reflexivity.
  - apply (fire_counts nextFn errorFn completeFn period_ h [] k 0 u).
  - change 0 with (Z.of_nat 0). generalize 0%nat.
    induction k as [|k IH]; intros i; [done|].
    cbn [counting_from seq fmap list_fmap]. change (values (Next ?v :: ?l)) with (v :: values l).
    f_equal. replace (Z.of_nat i + 1) with (Z.of_nat (S i)) by lia. apply IH.
Qed.

Lemma fire_cleared_all {U : Type} (h : list (timer U)) (t : timer U) rest (u : U) (m : nat) :
  cleared t = true ->
  forEach (replicate m (length h)) fire (mkScheduler u (h ++ t :: rest))
  = Normal tt (mkScheduler u (h ++ t :: rest)).
Proof.
  intros Hcleared. induction m as [|m IH]; [reflexivity|].
  cbn [replicate forEach]. unfold bind. by rewrite fire_cleared.
Qed.

(** X23. Calling the teardown that [subscribe] returned stops the timer for
    good: the firings before it deliver 0, ..., k-1, and however often the
    timer comes due afterwards, nothing more is delivered. *)
Theorem interval_teardown_stops_the_timer {U : Type} (period_ : value)
    (nextFn : nextFn_t U) (errorFn : errorFn_t U) (completeFn : completeFn_t U)
    (w : scheduler U) (k m : nat) :
  let id := length (timers w) in
  observed ((teardown <- subscribe_timer (Rx.interval period_) nextFn ;;
             forEach (replicate k id) fire ;;
             teardown ;;
             forEach (replicate m id) fire) w)
  = replay nextFn errorFn completeFn (counting_from 0 k) (observer_state w).
Proof.
  destruct w as [u h]. cbn [timers observer_state subscribe_timer Rx.interval].
  unfold bind at 1 2. cbn [setInterval timers observer_state ret]. unfold ret.
  destruct (fire_counts nextFn errorFn completeFn period_ h [] k 0 u) as [H1 H2].
  rewrite <- H1. unfold bind at 1.
  destruct (forEach (replicate k (length h)) fire _) as [[] [u2 h2]|exn w2]; [|done].
  specialize (H2 _ eq_refl). cbn [timers] in H2. subst h2.
  unfold bind. rewrite clearInterval_middle.
  by rewrite fire_cleared_all.
Qed.

Lemma fire_live_second {U : Type} (h : list (timer U)) (a t : timer U) rest (u : U) :
  cleared t = false ->
  fire (S (length h)) (mkScheduler u (h ++ a :: t :: rest))
  = match handler_nextFn t (VNum (count t)) u with
    | Normal _ u' =>
        Normal tt (mkScheduler u'
                     (h ++ a :: mkTimer (period t) (count t + 1) (handler_nextFn t) false
                        :: rest))
    | Throw exn u' =>
        Throw exn (mkScheduler u'
                     (h ++ a :: mkTimer (period t) (count t + 1) (handler_nextFn t) false
                        :: rest))
    end.
Proof.
  intros Hlive.
  replace (S (length h)) with (length (h ++ [a])) by (rewrite length_app; cbn; lia).
  change (h ++ a :: t :: rest) with (h ++ [a] ++ t :: rest).
  rewrite (app_assoc h [a]), fire_live by done.
  by rewrite <- !app_assoc.
Qed.

Lemma two_timers_fire {U : Type} (next1 next2 : nextFn_t U) (p1 p2 : value)
    (h : list (timer U)) (schedule : list bool) (i j : Z) (u : U) :
  observed (forEach schedule (fun b => fire (if b : bool then length h else S (length h)))
              (mkScheduler u (h ++ [mkTimer p1 i next1 false; mkTimer p2 j next2 false])))
  = two_counters next1 next2 schedule i j u.
Proof.
  revert i j u. induction schedule as [|[|] schedule IH]; intros i j u.
  - reflexivity.
  - cbn [forEach two_counters]. unfold bind. rewrite fire_live by done.
    cbn [handler_nextFn count period].
    destruct (next1 (VNum i) u) as [[] u'|exn u']; [apply IH|done].
  - cbn [forEach two_counters]. unfold bind. rewrite fire_live_second by done.
    cbn [handler_nextFn count period].
    destruct (next2 (VNum j) u) as [[] u'|exn u']; [apply IH|done].
Qed.

(** X24. Two subscriptions to an [interval] count independently: however
    the firings of their two timers interleave, each observer receives its
    own 0, 1, 2, ... *)
Theorem interval_subscriptions_count_independently {U : Type} (period_ : value)
    (next1 next2 : nextFn_t U) (w : scheduler U) (schedule : list bool) :
  let o := Rx.interval period_ in
  let id1 := length (timers w) in
  let id2 := S (length (timers w)) in
  observed ((_ <- subscribe_timer o next1 ;;
             _ <- subscribe_timer o next2 ;;
             forEach schedule (fun first => fire (if first : bool then id1 else id2))) w)
  = two_counters next1 next2 schedule 0 0 (observer_state w).
Proof.
  destruct w as [u h]. cbn [timers observer_state subscribe_timer Rx.interval].
  unfold bind at 1 2 3 4. cbn [setInterval timers observer_state ret]. unfold ret.
  rewrite <- app_assoc. cbn [app].
  apply two_timers_fire.
Qed.

(** ** [do] *)

(** X25. [do(next)] calls [next] once, without an argument, when the
    operator is applied, and returns its receiver: the observable it
    returns makes the calls of the receiver, however often it is subscribed
    to, and none of the values ever reaches [next]; the [error] and
    [complete] arguments are never called.  When [next] is not a function,
    applying the operator fails with a [TypeError]. *)
Theorem do_calls_next_once_and_returns_its_receiver (this : Observable)
    (calls : list notification) :
  emits this calls ->
  forall (S : Type) (next : value -> M S unit) (error : option (value -> M S unit))
         (complete : option (M S unit))
         (nextFn : nextFn_t S) (errorFn : errorFn_t S) (completeFn : completeFn_t S) (s : S),
    (o <- Rx.do_ (Some next) error complete this ;;
     subscribe o nextFn errorFn completeFn) s
    = (next VUndefined ;; replay nextFn errorFn completeFn calls) s
    /\ (o <- Rx.do_ (Some next) error complete this ;;
        subscribe o nextFn errorFn completeFn ;;
        subscribe o nextFn errorFn completeFn) s
       = (next VUndefined ;;
          replay nextFn errorFn completeFn calls ;;
          replay nextFn errorFn completeFn calls) s
    /\ Rx.do_ None error complete this s = Throw (TypeError "next is not a function") s.
Proof.
  intros H S next error complete n e c s. split_and!.
  - unfold Rx.do_. rewrite bind_assoc. apply bind_ext. intros [] s'.
    change (subscribe this n e c s' = replay n e c calls s'). apply H.
  - unfold Rx.do_. rewrite bind_assoc. apply bind_ext. intros [] s'.
    change ((subscribe this n e c ;; subscribe this n e c) s'
            = (replay n e c calls ;; replay n e c calls) s').
    apply bind_ext_l; intros; apply H.
  - reflexivity.
Qed.

Lemma do_calls_next_once_and_returns_its_receiver_witness :
  let tap := fun v => record (Error v) in
  (o <- Rx.do_ (Some tap) None None (producer [Next (VNum 1); Complete]) ;;
   subscribe o (fun v => record (Next v)) (fun err => record (Error err)) (record Complete)) []
  = Normal tt [Error VUndefined; Next (VNum 1); Complete].
Proof.
  apply (do_calls_next_once_and_returns_its_receiver
           (producer [Next (VNum 1); Complete]) [Next (VNum 1); Complete]).
  intros S n e c s. reflexivity.
Defined.
